(** * Aggregated statistics ([tea_tasting/aggr.py]) in exact arithmetic

    A shallow embedding of the [Aggregates] class and of the module-level
    helpers of [src/tea_tasting/aggr.py], followed by the properties that the
    specification states about them.

    Modelling choices.
    - Numbers ([float | int] in the source) are exact rationals [Qc]; counts
      ([int]) are integers [Z], injected into [Qc] where the source mixes
      them with means and variances.
    - A Python [dict] that is only read by key is a [gmap]; equality of
      stores is equality of their four fields, i.e. Python's [dict]
      equality, which ignores insertion order.
    - The [cov] argument of [__init__] is traversed with [.items()] while
      its keys are rewritten, so there order matters: it is an association
      list in insertion order, and later items overwrite earlier ones.
    - Python exceptions are the error side of [result]; only the exception
      class is recorded.  Division by zero raises, as [/] does on Python's
      [int] and [float]. *)

From Stdlib Require Import QArith Qcanon Field.
From stdpp Require Import gmap strings list fin_maps numbers.

Local Open Scope Qc_scope.

(** ** Exceptions and the error monad *)

Inductive exn : Type :=
| RuntimeError        (* [count()] on a store without a count *)
| KeyError            (* a [dict] subscript misses *)
| ZeroDivisionError.  (* [/] with a zero divisor *)

Inductive result (A : Type) : Type :=
| Ok (a : A)
| Raise (e : exn).
Arguments Ok {A} a.
Arguments Raise {A} e.

Global Instance exn_eq_dec : EqDecision exn.
Proof. solve_decision. Defined.

Global Instance Ok_inj {A} : Inj (=) (=) (@Ok A).
Proof. by intros x y [= ->]. Qed.

Global Instance result_ret : MRet result := λ A a, Ok a.
Global Instance result_bind : MBind result := λ A B f m,
  match m with
  | Ok a => f a
  | Raise e => Raise e
  end.
Global Instance result_fmap : FMap result := λ A B f m,
  match m with
  | Ok a => Ok (f a)
  | Raise e => Raise e
  end.

(** [d[k]] on a dict. *)
Definition subscript `{Countable K} {V} (d : gmap K V) (k : K) : result V :=
  match d !! k with
  | Some v => Ok v
  | None => Raise KeyError
  end.

(** [x / y] on numbers. *)
Definition truediv (x y : Qc) : result Qc :=
  if decide (y = 0) then Raise ZeroDivisionError else Ok (x / y).

(** [{k: v for k, v in items}]: later items win. *)
Definition dict_of_items `{Countable K} {V} (items : list (K * V)) : gmap K V :=
  foldl (λ d kv, <[kv.1 := kv.2]> d) ∅ items.

(** [(k, f(k)) for k in keys], evaluated left to right, stopping at the
    first exception. *)
Fixpoint comprehend {K V} (f : K → result V) (keys : list K)
  : result (list (K * V)) :=
  match keys with
  | [] => Ok []
  | k :: keys' =>
      v ← f k;
      kvs ← comprehend f keys';
      Ok ((k, v) :: kvs)
  end.

(** [{k: f(k) for k in keys}]. *)
Definition dict_comp `{Countable K} {V} (f : K → result V) (keys : list K)
  : result (gmap K V) :=
  dict_of_items <$> comprehend f keys.

(** [tuple({*xs})]: the distinct elements of [xs].  The order in which a
    Python set (or the keys of a dict) is traversed is not observable in the
    results below; the model traverses in the order of [elements]. *)
Definition tuple_of_set `{Countable K} (xs : list K) : list K :=
  elements (list_to_set xs : gset K).

(** [for k in d]. *)
Definition keys `{Countable K} {V} (d : gmap K V) : list K :=
  elements (dom d).

(** [itertools.chain] over the unpacked pairs. *)
Definition chain {A} (pairs : list (A * A)) : list A :=
  p ← pairs; [p.1; p.2].

(** Modelled from the spec: [tea_tasting._utils.sorted_tuple] is not part of
    the sources at hand.  The specification says of it that a pair is stored
    in a canonical, lexicographically sorted order.  Python compares [str]
    values by code point, which on UTF-8 encoded strings is the byte order
    of [String.ltb]. *)
Definition sorted_tuple (left right : string) : string * string :=
  if String.ltb right left then (right, left) else (left, right).

(** ** Normalisation of a request *)

Definition _validate_aggr_cols (has_count : bool)
    (mean_cols var_cols : list string) (cov_cols : list (string * string))
  : bool * list string * list string * list (string * string) :=
  let has_count :=
    has_count || bool_decide (0 < length var_cols)%nat
              || bool_decide (0 < length cov_cols)%nat in
  let mean_cols := tuple_of_set (mean_cols ++ var_cols ++ chain cov_cols) in
  let var_cols := tuple_of_set var_cols in
  let cov_cols := tuple_of_set ((λ p, sorted_tuple p.1 p.2) <$> cov_cols) in
  (has_count, mean_cols, var_cols, cov_cols).

(** ** The class [Aggregates] *)

Module Aggregates.

Record t : Type := mk {
  _count : option Z;
  _mean : gmap string Qc;
  _var : gmap string Qc;
  _cov : gmap (string * string) Qc;
}.

Definition __init__ (count : option Z) (mean var : gmap string Qc)
    (cov : list ((string * string) * Qc)) : t :=
  {| _count := count;
     _mean := mean;
     _var := var;
     _cov := dict_of_items
               ((λ item, (sorted_tuple item.1.1 item.1.2, item.2)) <$> cov) |}.

Definition count (self : t) : result Z :=
  match _count self with
  | None => Raise RuntimeError
  | Some n => Ok n
  end.

Definition mean (self : t) (key : option string) : result Qc :=
  match key with
  | None => Ok 1
  | Some key => subscript (_mean self) key
  end.

Definition var (self : t) (key : option string) : result Qc :=
  match key with
  | None => Ok 0
  | Some key => subscript (_var self) key
  end.

Definition cov (self : t) (left right : option string) : result Qc :=
  match left, right with
  | Some l, Some r => subscript (_cov self) (sorted_tuple l r)
  | _, _ => Ok 0
  end.

Definition ratio_var (self : t) (numer denom : option string) : result Qc :=
  d1 ← mean self denom;
  d2 ← mean self denom;
  let denom_mean_sq := d1 * d2 in
  vn ← var self numer;
  c ← cov self numer denom;
  mn ← mean self numer;
  md ← mean self denom;
  q1 ← truediv (2 * c * mn) md;
  vd ← var self denom;
  mn1 ← mean self numer;
  mn2 ← mean self numer;
  q2 ← truediv (vd * mn1 * mn2) denom_mean_sq;
  truediv (vn - q1 + q2) denom_mean_sq.

Definition ratio_cov (self : t)
    (left_numer left_denom right_numer right_denom : option string)
  : result Qc :=
  ln ← mean self left_numer;
  ld ← mean self left_denom;
  left_ratio_of_means ← truediv ln ld;
  rn ← mean self right_numer;
  rd ← mean self right_denom;
  right_ratio_of_means ← truediv rn rd;
  c1 ← cov self left_numer right_numer;
  c2 ← cov self left_numer right_denom;
  c3 ← cov self left_denom right_numer;
  c4 ← cov self left_denom right_denom;
  ld' ← mean self left_denom;
  q ← truediv (c1 - c2 * right_ratio_of_means - c3 * left_ratio_of_means
               + c4 * left_ratio_of_means * right_ratio_of_means) ld';
  rd' ← mean self right_denom;
  truediv q rd'.

Definition filter (self : t) (has_count : bool)
    (mean_cols var_cols : list string) (cov_cols : list (string * string))
  : result t :=
  let '(has_count, mean_cols, var_cols, cov_cols) :=
    _validate_aggr_cols has_count mean_cols var_cols cov_cols in
  c ← (if has_count then Some <$> count self else Ok None);
  m ← dict_comp (λ col, mean self (Some col)) mean_cols;
  v ← dict_comp (λ col, var self (Some col)) var_cols;
  cv ← comprehend (λ cols, cov self (Some cols.1) (Some cols.2)) cov_cols;
  Ok (__init__ c m v cv).

(** The three functions below are module-level functions in the source;
    [__add__] calls them, so they come first here. *)

Definition _add_mean (left right : t) (col : string) : result Qc :=
  lc ← count left;
  lm ← mean left (Some col);
  rc ← count right;
  rm ← mean right (Some col);
  let sum_ := Qc_of_Z lc * lm + Qc_of_Z rc * rm in
  lc' ← count left;
  rc' ← count right;
  let count := (lc' + rc')%Z in
  truediv sum_ (Qc_of_Z count).

Definition _add_var (left right : t) (col : string) : result Qc :=
  left_n ← count left;
  right_n ← count right;
  let total_n := (left_n + right_n)%Z in
  lm ← mean left (Some col);
  rm ← mean right (Some col);
  let diff_of_means := lm - rm in
  lv ← var left (Some col);
  rv ← var right (Some col);
  q ← truediv (diff_of_means * diff_of_means * Qc_of_Z left_n * Qc_of_Z right_n)
              (Qc_of_Z total_n);
  truediv (lv * Qc_of_Z (left_n - 1) + rv * Qc_of_Z (right_n - 1) + q)
          (Qc_of_Z (total_n - 1)).

Definition _add_cov (left right : t) (cols : string * string) : result Qc :=
  left_n ← count left;
  right_n ← count right;
  let total_n := (left_n + right_n)%Z in
  lm0 ← mean left (Some cols.1);
  rm0 ← mean right (Some cols.1);
  let diff_of_means0 := lm0 - rm0 in
  lm1 ← mean left (Some cols.2);
  rm1 ← mean right (Some cols.2);
  let diff_of_means1 := lm1 - rm1 in
  lc ← cov left (Some cols.1) (Some cols.2);
  rc ← cov right (Some cols.1) (Some cols.2);
  q ← truediv (diff_of_means0 * diff_of_means1 * Qc_of_Z left_n
               * Qc_of_Z right_n) (Qc_of_Z total_n);
  truediv (lc * Qc_of_Z (left_n - 1) + rc * Qc_of_Z (right_n - 1) + q)
          (Qc_of_Z (total_n - 1)).

Definition __add__ (self other : t) : result t :=
  c ← match _count self with
      | Some _ =>
          n1 ← count self;
          n2 ← count other;
          Ok (Some (n1 + n2)%Z)
      | None => Ok None
      end;
  m ← dict_comp (λ col, _add_mean self other col) (keys (_mean self));
  v ← dict_comp (λ col, _add_var self other col) (keys (_var self));
  cv ← comprehend (λ cols, _add_cov self other cols) (keys (_cov self));
  Ok (__init__ c m v cv).

End Aggregates.

(** ** Direct statistics of one sample

    The reductions that [read_aggregates] hands to the tabular backend, on
    one column held as a list: the mean, and the sum of squared demeaned
    values over [count - 1]. *)

Definition total (xs : list Qc) : Qc := foldr Qcplus 0 xs.

Definition sample_mean (xs : list Qc) : result Qc :=
  truediv (total xs) (Qc_of_Z (Z.of_nat (length xs))).

Definition sample_var (xs : list Qc) : result Qc :=
  m ← sample_mean xs;
  let demean := (λ x, x - m) <$> xs in
  truediv (total ((λ d, d * d) <$> demean))
          (Qc_of_Z (Z.of_nat (length xs) - 1)).

(** [read_aggregates(data, None, True, [col], [col], [])] on a table whose
    column [col] holds [xs]. *)
Definition read_column (col : string) (xs : list Qc) : result Aggregates.t :=
  m ← sample_mean xs;
  v ← sample_var xs;
  Ok (Aggregates.__init__ (Some (Z.of_nat (length xs)))
        {[col := m]} {[col := v]} []).

(** ** Vocabulary of the statements *)

(** A pair is canonical when it is in sorted order: its second component
    is not below its first. *)
Definition canonical (p : string * string) : Prop :=
  String.ltb p.2 p.1 = false.

(** Two pairs that name the same unordered pair of variables. *)
Definition same_pair (p q : string * string) : Prop :=
  p = q ∨ p = (q.2, q.1).

(** The invariant of the covariance map: every key is canonical, and no two
    keys name the same unordered pair. *)
Definition cov_invariant (s : Aggregates.t) : Prop :=
  (∀ k, is_Some (Aggregates._cov s !! k) → canonical k) ∧
  (∀ k1 k2, is_Some (Aggregates._cov s !! k1) →
            is_Some (Aggregates._cov s !! k2) →
            same_pair k1 k2 → k1 = k2).

(** The source store holds every value of a (normalised) request. *)
Definition has_all (s : Aggregates.t) (mean_cols var_cols : list string)
    (cov_cols : list (string * string)) : Prop :=
  (∀ k, k ∈ mean_cols → is_Some (Aggregates._mean s !! k)) ∧
  (∀ k, k ∈ var_cols → is_Some (Aggregates._var s !! k)) ∧
  (∀ p, p ∈ cov_cols → is_Some (Aggregates._cov s !! p)).

(** [r] holds exactly the (normalised) request, with the values of [s]. *)
Definition projects (s : Aggregates.t) (has_count : bool)
    (mean_cols var_cols : list string) (cov_cols : list (string * string))
    (r : Aggregates.t) : Prop :=
  Aggregates._count r = (if has_count then Aggregates._count s else None) ∧
  (∀ k, Aggregates._mean r !! k =
          if decide (k ∈ mean_cols) then Aggregates._mean s !! k else None) ∧
  (∀ k, Aggregates._var r !! k =
          if decide (k ∈ var_cols) then Aggregates._var s !! k else None) ∧
  (∀ p, Aggregates._cov r !! p =
          if decide (p ∈ cov_cols) then Aggregates._cov s !! p else None).

(** The store of the ratio scenario: [mean={x:2, y:4}], [var={x:1, y:2}],
    [cov={(x,y):0.5}], [count=10]. *)
Definition store_xy : Aggregates.t :=
  Aggregates.__init__ (Some 10%Z)
    {[ "x" := Q2Qc 2; "y" := Q2Qc 4 ]}
    {[ "x" := Q2Qc 1; "y" := Q2Qc 2 ]}
    [(("x", "y"), Q2Qc (1 # 2))].

(** What is left of [store_xy] when the mean of [x], the variance of [y]
    and the covariance of [(y, x)] are requested. *)
Definition store_xy_filtered : Aggregates.t :=
  Aggregates.mk (Some 10%Z)
    {[ "x" := Q2Qc 2; "y" := Q2Qc 4 ]}
    {[ "y" := Q2Qc 2 ]}
    {[ ("x", "y") := Q2Qc (1 # 2) ]}.

(** A store built without a count. *)
Definition store_no_count : Aggregates.t :=
  Aggregates.__init__ None {[ "x" := Q2Qc 2 ]} {[ "x" := Q2Qc 1 ]} [].

(** The precondition of a merge: both counts defined and at least 2, and
    the same keys in the three maps. *)
Definition mergeable (a b : Aggregates.t) : Prop :=
  (∃ n1 n2, Aggregates._count a = Some n1 ∧ Aggregates._count b = Some n2 ∧
            (2 ≤ n1)%Z ∧ (2 ≤ n2)%Z) ∧
  dom (Aggregates._mean a) = dom (Aggregates._mean b) ∧
  dom (Aggregates._var a) = dom (Aggregates._var b) ∧
  dom (Aggregates._cov a) = dom (Aggregates._cov b).

(** The invariants of a store: every variable with a variance or in a
    covariance pair has a mean, and covariance keys are canonical. *)
Definition well_formed (s : Aggregates.t) : Prop :=
  (∀ k, is_Some (Aggregates._var s !! k) →
        is_Some (Aggregates._mean s !! k)) ∧
  (∀ p, is_Some (Aggregates._cov s !! p) →
        canonical p ∧ is_Some (Aggregates._mean s !! p.1) ∧
        is_Some (Aggregates._mean s !! p.2)).

(** The pooled variance as the specification writes it, with [N = n1 + n2]:
    [[v1·(n1−1) + v2·(n2−1) + (m1−m2)²·n1·n2 / N] / (N−1)]. *)
Definition spec_pooled_variance (n1 n2 : Z) (m1 m2 v1 v2 : Qc) : Qc :=
  let N := Qc_of_Z n1 + Qc_of_Z n2 in
  (v1 * (Qc_of_Z n1 - 1) + v2 * (Qc_of_Z n2 - 1)
   + (m1 - m2) ^ 2 * Qc_of_Z n1 * Qc_of_Z n2 / N) / (N - 1).

(** The samples of the merge scenario and their stores for variable [x]. *)
Definition sample_A : list Qc := Q2Qc <$> [1; 2; 3]%Q.
Definition sample_B : list Qc := Q2Qc <$> [4; 5; 6; 7]%Q.

Definition store_A : Aggregates.t :=
  Aggregates.mk (Some 3%Z) {[ "x" := Q2Qc 2 ]} {[ "x" := Q2Qc 1 ]} ∅.
Definition store_B : Aggregates.t :=
  Aggregates.mk (Some 4%Z) {[ "x" := Q2Qc (11 # 2) ]}
    {[ "x" := Q2Qc (5 # 3) ]} ∅.
Definition store_AB : Aggregates.t :=
  Aggregates.mk (Some 7%Z) {[ "x" := Q2Qc 4 ]} {[ "x" := Q2Qc (14 # 3) ]} ∅.

(** The merged store with the numbers that the scenario of the
    specification gives for it: mean 27/7 (3.857143) and variance 80/21
    (3.8095238). *)
Definition store_AB_scenario : Aggregates.t :=
  Aggregates.mk (Some 7%Z) {[ "x" := Q2Qc (27 # 7) ]}
    {[ "x" := Q2Qc (80 # 21) ]} ∅.

(** Stores without entries, with and without a count. *)
Definition store_empty_counted : Aggregates.t :=
  Aggregates.__init__ (Some 3%Z) ∅ ∅ [].
Definition store_empty : Aggregates.t :=
  Aggregates.__init__ None ∅ ∅ [].

(** [store_xy] with the covariance of each variable with itself, equal to
    its variance. *)
Definition store_xy_full : Aggregates.t :=
  Aggregates.__init__ (Some 10%Z)
    {[ "x" := Q2Qc 2; "y" := Q2Qc 4 ]}
    {[ "x" := Q2Qc 1; "y" := Q2Qc 2 ]}
    [(("x", "x"), Q2Qc 1); (("y", "x"), Q2Qc (1 # 2)); (("y", "y"), Q2Qc 2)].

(** Items of a covariance argument that give one value to each unordered
    pair: in particular the items of a dict in which no two keys name the
    same unordered pair. *)
Definition consistent_items (items : list ((string * string) * Qc)) : Prop :=
  ∀ p1 v1 p2 v2,
    (p1, v1) ∈ items → (p2, v2) ∈ items → same_pair p1 p2 → v1 = v2.

(** The pooled mean and the pooled covariance in closed form, with
    [N = n1 + n2]: the weighted mean, and the pooled variance with the
    product of the two differences of means in place of the square. *)
Definition pooled_mean (n1 n2 : Z) (m1 m2 : Qc) : Qc :=
  (Qc_of_Z n1 * m1 + Qc_of_Z n2 * m2) / (Qc_of_Z n1 + Qc_of_Z n2).

Definition pooled_covariance (n1 n2 : Z) (ma1 ma2 mb1 mb2 c1 c2 : Qc) : Qc :=
  let N := Qc_of_Z n1 + Qc_of_Z n2 in
  (c1 * (Qc_of_Z n1 - 1) + c2 * (Qc_of_Z n2 - 1)
   + (ma1 - ma2) * (mb1 - mb2) * Qc_of_Z n1 * Qc_of_Z n2 / N) / (N - 1).

(** The covariance reduction of [read_aggregates] on two columns held as a
    list of rows: the sum of the products of the demeaned values over
    [count - 1]. *)
Definition sample_cov (rows : list (Qc * Qc)) : result Qc :=
  ml ← sample_mean rows.*1;
  mr ← sample_mean rows.*2;
  truediv (total ((λ row, (row.1 - ml) * (row.2 - mr)) <$> rows))
          (Qc_of_Z (Z.of_nat (length rows) - 1)).

(** [read_aggregates(data, None, False, [], [], [(l, r)])] on a table whose
    columns [l] and [r] hold the two components of [rows], for two
    different names with [l] before [r], so that [(l, r)] is the canonical
    pair of the normalised request: the count and the two means are
    promoted into the result. *)
Definition read_pair (l r : string) (rows : list (Qc * Qc))
  : result Aggregates.t :=
  ml ← sample_mean rows.*1;
  mr ← sample_mean rows.*2;
  c ← sample_cov rows;
  Ok (Aggregates.__init__ (Some (Z.of_nat (length rows)))
        (<[r := mr]> {[ l := ml ]}) ∅ [((l, r), c)]).

(** Two rows of paired observations for [x] and [y]. *)
Definition rows_A : list (Qc * Qc) :=
  [(Q2Qc 1, Q2Qc 2); (Q2Qc 2, Q2Qc 1); (Q2Qc 3, Q2Qc 6)].
Definition rows_B : list (Qc * Qc) :=
  [(Q2Qc 4, Q2Qc 0); (Q2Qc 6, Q2Qc 2)].

Definition store_C : Aggregates.t :=
  Aggregates.mk (Some 2%Z) {[ "x" := Q2Qc 9 ]} {[ "x" := Q2Qc 2 ]} ∅.


(** [store_B] with entries for a second variable. *)
Definition store_B_wide : Aggregates.t :=
  Aggregates.mk (Some 4%Z)
    {[ "x" := Q2Qc (11 # 2); "z" := Q2Qc 1 ]}
    {[ "x" := Q2Qc (5 # 3); "z" := Q2Qc 1 ]}
    {[ ("x", "z") := Q2Qc 1 ]}.

(** ** Column labels

    The labels under which [read_aggregates] asks the backend for each
    statistic and [_get_aggregates] reads it back: the module constants,
    applied with [str.format] to variable names. *)

Definition _COUNT : string := "_count".
Definition _MEAN (col : string) : string := "_mean__" +:+ col.
Definition _VAR (col : string) : string := "_var__" +:+ col.
Definition _COV (left right : string) : string :=
  "_cov__" +:+ left +:+ "__" +:+ right.
Definition _DEMEAN (col : string) : string := "_demean__" +:+ col.

(** * Properties *)

Import Aggregates.

(** ** Basic facts about the error monad and the arithmetic *)

Lemma truediv_ok (x y : Qc) : y ≠ 0 → truediv x y = Ok (x / y).
Proof. intros Hy. unfold truediv. by destruct (decide (y = 0)). Qed.

Lemma truediv_zero (x : Qc) : truediv x 0 = Raise ZeroDivisionError.
Proof. unfold truediv. by destruct (decide (0 = 0)). Qed.

Lemma Qc_sq_neq_0 (y : Qc) : y ≠ 0 → y * y ≠ 0.
Proof. intros Hy H. by destruct (Qcmult_integral _ _ H). Qed.

Lemma subscript_Ok `{Countable K} {V} (d : gmap K V) k v :
  subscript d k = Ok v ↔ d !! k = Some v.
Proof. unfold subscript. destruct (d !! k); split; congruence. Qed.

Lemma subscript_Raise `{Countable K} {V} (d : gmap K V) k e :
  subscript d k = Raise e ↔ d !! k = None ∧ e = KeyError.
Proof.
  unfold subscript. destruct (d !! k); split.
  - discriminate.
  - by intros [? _].
  - by intros [= <-].
  - by intros [_ ->].
Qed.

(** ** The canonical order of a pair *)

Lemma sorted_tuple_comm (a b : string) : sorted_tuple a b = sorted_tuple b a.
Proof.
  unfold sorted_tuple, String.ltb.
  rewrite (String.compare_antisym a b).
  destruct (String.compare b a) eqn:E; simpl; try reflexivity.
  apply String.compare_eq_iff in E. by subst.
Qed.

Lemma ltb_asym (a b : string) :
  String.ltb a b = true → String.ltb b a = false.
Proof.
  unfold String.ltb. rewrite (String.compare_antisym a b).
  by destruct (String.compare b a).
Qed.

Lemma sorted_tuple_canonical (a b : string) : canonical (sorted_tuple a b).
Proof.
  unfold canonical, sorted_tuple.
  destruct (String.ltb b a) eqn:E; simpl; [|done].
  by apply ltb_asym.
Qed.

(** The canonical pairs are the fixed points of [sorted_tuple]. *)
Lemma canonical_fixed (p : string * string) :
  canonical p ↔ sorted_tuple p.1 p.2 = p.
Proof.
  destruct p as [a b]. unfold canonical, sorted_tuple. simpl.
  destruct (String.ltb b a) eqn:E; split; try done.
  intros [= -> _]. pose proof (ltb_asym _ _ E). congruence.
Qed.

(** ** Accessors *)

(** C7: on every store, [mean(None)] is 1, [var(None)] is 0 and
    [cov(x, None)] is 0 for every [x], a name or [None]; none of them looks
    anything up, so none can fail. *)
Theorem none_conventions (s : t) (x : option string) :
  mean s None = Ok 1 ∧ var s None = Ok 0 ∧ cov s x None = Ok 0.
Proof. repeat split. by destruct x. Qed.

Lemma cov_None_l (s : t) (x : option string) : cov s None x = Ok 0.
Proof. done. Qed.

(** C6: covariance lookup does not depend on the order of its two
    arguments, on any store; and a store constructed from a pair given in
    either order answers the lookup in both orders with the stored value. *)
Theorem cov_symmetric :
  (∀ (s : t) (a b : option string), cov s a b = cov s b a) ∧
  (∀ c m v (l r : string) (x : Qc),
     cov (__init__ c m v [((l, r), x)]) (Some l) (Some r) = Ok x ∧
     cov (__init__ c m v [((l, r), x)]) (Some r) (Some l) = Ok x).
Proof.
  split.
  - intros s [a|] [b|]; simpl; try done. by rewrite sorted_tuple_comm.
  - intros c m v l r x. unfold cov, __init__, dict_of_items; simpl.
    rewrite (sorted_tuple_comm r l). unfold subscript.
    by rewrite lookup_insert_eq.
Qed.

(** ** Ratio variance *)

Lemma ratio_var_eval (s : t) (numer denom : option string)
    (vn vd mn md c : Qc) :
  var s numer = Ok vn → var s denom = Ok vd →
  mean s numer = Ok mn → mean s denom = Ok md →
  cov s numer denom = Ok c →
  ratio_var s numer denom =
    (q1 ← truediv (2 * c * mn) md;
     q2 ← truediv (vd * mn * mn) (md * md);
     truediv (vn - q1 + q2) (md * md)).
Proof.
  intros Hvn Hvd Hmn Hmd Hc. unfold ratio_var.
  rewrite Hmd, Hvn, Hc, Hmn; simpl.
  destruct (truediv (2 * c * mn) md); simpl; [|done].
  by rewrite Hvd.
Qed.

(** A zero denominator mean makes [ratio_var] raise. *)
Lemma ratio_var_zero_denom (s : t) (numer denom : option string)
    (vn vd mn c : Qc) :
  var s numer = Ok vn → var s denom = Ok vd →
  mean s numer = Ok mn → mean s denom = Ok 0 →
  cov s numer denom = Ok c →
  ratio_var s numer denom = Raise ZeroDivisionError.
Proof.
  intros Hvn Hvd Hmn Hmd Hc.
  rewrite (ratio_var_eval _ _ _ _ _ _ _ _ Hvn Hvd Hmn Hmd Hc).
  by rewrite truediv_zero.
Qed.

(** C2: with the names present, [ratio_var] returns the Delta-method
    expression wherever that expression has a value, that is, for a
    denominator mean other than zero, and raises [ZeroDivisionError] for a
    zero one; on the scenario store it returns 1/16 = 0.0625. *)
Theorem ratio_var_delta_method :
  (∀ (s : t) (numer denom : string) (vn vd mn md c : Qc),
     var s (Some numer) = Ok vn → var s (Some denom) = Ok vd →
     mean s (Some numer) = Ok mn → mean s (Some denom) = Ok md →
     cov s (Some numer) (Some denom) = Ok c →
     (md ≠ 0 →
      ratio_var s (Some numer) (Some denom) =
        Ok ((vn - 2 * c * mn / md + vd * mn ^ 2 / md ^ 2) / md ^ 2)) ∧
     (md = 0 →
      ratio_var s (Some numer) (Some denom) = Raise ZeroDivisionError)) ∧
  ratio_var store_xy (Some "x") (Some "y") = Ok (Q2Qc (1 # 16)).
Proof.
  split; [|by vm_compute].
  intros s numer denom vn vd mn md c Hvn Hvd Hmn Hmd Hc. split.
  - intros Hmd0.
    rewrite (ratio_var_eval _ _ _ _ _ _ _ _ Hvn Hvd Hmn Hmd Hc).
    pose proof (Qc_sq_neq_0 _ Hmd0).
    rewrite !truediv_ok by done; simpl. rewrite truediv_ok by done.
    f_equal. cbn [Qcpower]. by field.
  - intros ->. by eapply ratio_var_zero_denom.
Qed.

Lemma ratio_var_delta_method_witness :
  ratio_var store_xy (Some "x") (Some "y") =
    Ok ((Q2Qc 1 - 2 * Q2Qc (1 # 2) * Q2Qc 2 / Q2Qc 4
         + Q2Qc 2 * Q2Qc 2 ^ 2 / Q2Qc 4 ^ 2) / Q2Qc 4 ^ 2).
Proof.
  apply (proj1 ratio_var_delta_method store_xy "x" "y"
           (Q2Qc 1) (Q2Qc 2) (Q2Qc 2) (Q2Qc 4) (Q2Qc (1 # 2)));
    solve [reflexivity | discriminate].
Defined.

(** C9: a metric over the constant denominator has its own variance:
    whenever [var(v)] and [mean(v)] succeed, [ratio_var(v, None)] is
    [var(v)]. *)
Theorem ratio_var_none_denom (s : t) (v : option string) (x m : Qc) :
  var s v = Ok x → mean s v = Ok m → ratio_var s v None = Ok x.
Proof.
  intros Hv Hm.
  rewrite (ratio_var_eval s v None x 0 m 1 0) by (done || by destruct v).
  rewrite !truediv_ok by discriminate; simpl.
  rewrite truediv_ok by discriminate.
  f_equal. field. discriminate.
Qed.

Lemma ratio_var_none_denom_witness :
  ratio_var store_xy (Some "x") None = Ok (Q2Qc 1).
Proof.
  apply (ratio_var_none_denom store_xy (Some "x") (Q2Qc 1) (Q2Qc 2));
    reflexivity.
Defined.

(** ** Comprehensions *)

Lemma bind_Ok {A B} (m : result A) (f : A → result B) (b : B) :
  m ≫= f = Ok b ↔ ∃ a, m = Ok a ∧ f a = Ok b.
Proof.
  destruct m as [a|e]; simpl; split.
  - intros. by exists a.
  - by intros (? & [= <-] & ?).
  - discriminate.
  - intros (? & ? & ?). discriminate.
Qed.

Lemma bind_Raise {A B} (m : result A) (f : A → result B) (e : exn) :
  m ≫= f = Raise e ↔ m = Raise e ∨ ∃ a, m = Ok a ∧ f a = Raise e.
Proof.
  destruct m as [a|e']; simpl; split.
  - intros. right. by exists a.
  - intros [?|(? & [= <-] & ?)]; [discriminate|assumption].
  - intros [= ->]. by left.
  - intros [[= ->]|(? & ? & ?)]; [reflexivity|discriminate].
Qed.

Section comprehensions.
Context `{Countable K} {V : Type}.
Implicit Types (f g : K → result V) (keys : list K) (kvs : list (K * V)).

Lemma comprehend_ext f g keys :
  (∀ k, k ∈ keys → f k = g k) → comprehend f keys = comprehend g keys.
Proof.
  induction keys as [|k keys IH]; intros Hfg; simpl; [done|].
  rewrite (Hfg k) by left. rewrite IH; [done|].
  intros k' Hk'. apply Hfg. by right.
Qed.

Lemma comprehend_elem_of f keys kvs k v :
  comprehend f keys = Ok kvs →
  (k, v) ∈ kvs ↔ k ∈ keys ∧ f k = Ok v.
Proof.
  revert kvs. induction keys as [|k0 keys IH]; intros kvs; simpl.
  - intros [= <-]. split; [by intros ?%elem_of_nil|by intros [?%elem_of_nil _]].
  - intros (v0 & Hv0 & (kvs' & Hkvs' & [= <-])%bind_Ok)%bind_Ok.
    rewrite !elem_of_cons, (IH _ Hkvs'). split.
    + intros [[= -> ->]|[? ?]]; auto.
    + intros [[->|?] Hf]; [left|right; done]. congruence.
Qed.

Lemma comprehend_fst f keys kvs :
  comprehend f keys = Ok kvs → kvs.*1 = keys.
Proof.
  revert kvs. induction keys as [|k0 keys IH]; intros kvs; simpl.
  - by intros [= <-].
  - intros (v0 & Hv0 & (kvs' & Hkvs' & [= <-])%bind_Ok)%bind_Ok.
    simpl. f_equal. by apply IH.
Qed.

Lemma comprehend_total f keys :
  (∀ k, k ∈ keys → ∃ v, f k = Ok v) → ∃ kvs, comprehend f keys = Ok kvs.
Proof.
  induction keys as [|k keys IH]; intros Hf; simpl; [by eexists|].
  destruct (Hf k) as [v ->]; [by left|].
  destruct IH as [kvs ->]; [|by eexists].
  intros k' Hk'. apply Hf. by right.
Qed.

Lemma comprehend_Raise f keys e :
  comprehend f keys = Raise e → ∃ k, k ∈ keys ∧ f k = Raise e.
Proof.
  induction keys as [|k keys IH]; simpl; [discriminate|].
  intros [Hk|(v & _ & [Hr|(? & _ & [=])]%bind_Raise)]%bind_Raise.
  - exists k. split; [by left|done].
  - destruct (IH Hr) as (k' & ? & ?). exists k'. split; [by right|done].
Qed.

Lemma dict_of_items_snoc kvs k v :
  dict_of_items (kvs ++ [(k, v)]) = <[k := v]> (dict_of_items kvs).
Proof. unfold dict_of_items. by rewrite foldl_snoc. Qed.

Lemma dict_of_items_lookup_Some kvs k v :
  dict_of_items kvs !! k = Some v → (k, v) ∈ kvs.
Proof.
  induction kvs as [|[k0 v0] kvs IH] using rev_ind.
  - unfold dict_of_items; simpl. by rewrite lookup_empty.
  - rewrite dict_of_items_snoc, lookup_insert, elem_of_app,
      list_elem_of_singleton.
    case_decide; [intros [= <-]; subst; by right|]. auto.
Qed.

(** On items that give each key one value, the dict holds exactly the
    items. *)
Lemma dict_of_items_lookup kvs k v :
  (∀ k v1 v2, (k, v1) ∈ kvs → (k, v2) ∈ kvs → v1 = v2) →
  dict_of_items kvs !! k = Some v ↔ (k, v) ∈ kvs.
Proof.
  intros Hfun. split; [apply dict_of_items_lookup_Some|].
  induction kvs as [|[k0 v0] kvs IH] using rev_ind.
  - by intros ?%elem_of_nil.
  - intros Hin. rewrite dict_of_items_snoc, lookup_insert.
    case_decide as Hk.
    + subst k0. f_equal. apply (Hfun k); [|done].
      apply elem_of_app. right. by apply list_elem_of_singleton.
    + apply IH.
      * intros k' v1 v2 ? ?. apply (Hfun k'); apply elem_of_app; by left.
      * apply elem_of_app in Hin as [|[= ? ?]%list_elem_of_singleton];
          [done|congruence].
Qed.

Lemma dict_comp_lookup f keys d k v :
  dict_comp f keys = Ok d →
  d !! k = Some v ↔ k ∈ keys ∧ f k = Ok v.
Proof.
  unfold dict_comp. destruct (comprehend f keys) as [kvs|] eqn:E; [|done].
  intros [= <-]. rewrite <-(comprehend_elem_of _ _ _ _ _ E).
  apply dict_of_items_lookup. intros k' v1 v2.
  rewrite !(comprehend_elem_of _ _ _ _ _ E). intros [_ ?] [_ ?]. congruence.
Qed.

Lemma dict_comp_total f keys :
  (∀ k, k ∈ keys → ∃ v, f k = Ok v) → ∃ d, dict_comp f keys = Ok d.
Proof.
  intros [kvs Hkvs]%comprehend_total. unfold dict_comp. rewrite Hkvs.
  by eexists.
Qed.

Lemma dict_comp_ext f g keys :
  (∀ k, k ∈ keys → f k = g k) → dict_comp f keys = dict_comp g keys.
Proof. intros. unfold dict_comp. by rewrite (comprehend_ext f g). Qed.

Lemma dict_comp_Raise f keys e :
  dict_comp f keys = Raise e ↔ comprehend f keys = Raise e.
Proof.
  unfold dict_comp. destruct (comprehend f keys); simpl; [done|].
  split; by intros [= ->].
Qed.

End comprehensions.

(** ** The constructor and the canonical keys *)

Lemma canonical_same_pair (k1 k2 : string * string) :
  canonical k1 → canonical k2 → same_pair k1 k2 → k1 = k2.
Proof.
  intros H1%canonical_fixed H2%canonical_fixed [->| ->]; [done|].
  destruct k2 as [a b]; simpl in *.
  rewrite sorted_tuple_comm in H1. congruence.
Qed.

Lemma canonical_keys_cov_invariant (s : t) :
  (∀ k, is_Some (_cov s !! k) → canonical k) → cov_invariant s.
Proof.
  intros Hc. split; [done|].
  intros k1 k2 ?%Hc ?%Hc. by apply canonical_same_pair.
Qed.

Lemma init_cov_invariant c m v items : cov_invariant (__init__ c m v items).
Proof.
  apply canonical_keys_cov_invariant. intros k [x Hx]. simpl in Hx.
  apply dict_of_items_lookup_Some in Hx.
  apply list_elem_of_fmap in Hx as ([[l r] y] & [= -> _] & _).
  apply sorted_tuple_canonical.
Qed.

(** When the keys of the items are canonical already, the constructor
    stores the items as they are. *)
Lemma init_canonical_items c m v (items : list ((string * string) * Qc)) :
  (∀ p, p ∈ items.*1 → canonical p) →
  _cov (__init__ c m v items) = dict_of_items items.
Proof.
  intros Hc. unfold __init__; simpl. f_equal.
  induction items as [|[p x] items IH]; [done|].
  rewrite fmap_cons. f_equal.
  - f_equal. apply canonical_fixed, (Hc p). by left.
  - apply IH. intros q Hq. apply Hc. by right.
Qed.

Lemma filter_returns_init s hc mc vc cc r :
  filter s hc mc vc cc = Ok r → ∃ c m v items, r = __init__ c m v items.
Proof.
  unfold filter. destruct (_validate_aggr_cols hc mc vc cc) as [[[hc' mc'] vc'] cc'].
  intros (c & _ & (m & _ & (v & _ & (cv & _ & [= <-])%bind_Ok)%bind_Ok)
            %bind_Ok)%bind_Ok.
  by exists c, m, v, cv.
Qed.

Lemma add_returns_init a b r :
  __add__ a b = Ok r → ∃ c m v items, r = __init__ c m v items.
Proof.
  unfold __add__.
  intros (c & _ & (m & _ & (v & _ & (cv & _ & [= <-])%bind_Ok)%bind_Ok)
            %bind_Ok)%bind_Ok.
  by exists c, m, v, cv.
Qed.

(** C10: the constructor leaves only canonical keys in the covariance map,
    no two of them naming the same unordered pair; [filter] and [__add__]
    return constructed stores, so their results satisfy the same; and when
    the constructor is given both orders of one pair, a single entry
    remains, holding the value of the later item, and nothing is raised:
    in any input the last item overwrites what came before it under the
    same canonical key. *)
Theorem canonical_key_invariant :
  (∀ c m v items, cov_invariant (__init__ c m v items)) ∧
  (∀ s hc mc vc cc r, filter s hc mc vc cc = Ok r → cov_invariant r) ∧
  (∀ a b r, __add__ a b = Ok r → cov_invariant r) ∧
  (∀ c m v (l r : string) (x y : Qc),
     l ≠ r →
     _cov (__init__ c m v [((l, r), x); ((r, l), y)])
       = {[ sorted_tuple l r := y ]}) ∧
  (∀ c m v items (l r : string) (x : Qc),
     _cov (__init__ c m v (items ++ [((l, r), x)])) !! sorted_tuple l r
       = Some x ∧
     _cov (__init__ c m v (items ++ [((l, r), x)])) !! sorted_tuple r l
       = Some x).
Proof.
  split; [|split; [|split; [|split]]]; cycle 4.
  { intros c m v items l r x. rewrite (sorted_tuple_comm r l).
    unfold __init__; simpl. rewrite fmap_app; simpl.
    rewrite dict_of_items_snoc. by rewrite lookup_insert_eq. }
  - apply init_cov_invariant.
  - intros s hc mc vc cc r (c & m & v & items & ->)%filter_returns_init.
    apply init_cov_invariant.
  - intros a b r (c & m & v & items & ->)%add_returns_init.
    apply init_cov_invariant.
  - intros c m v l r x y _. simpl. unfold dict_of_items; simpl.
    rewrite (sorted_tuple_comm r l). by rewrite insert_insert_eq.
Qed.

(** ** Filtering *)

Lemma comprehend_Ok_all {K V} (f : K → result V) keys kvs k :
  comprehend f keys = Ok kvs → k ∈ keys → ∃ v, f k = Ok v.
Proof.
  intros E Hk. pose proof (comprehend_fst _ _ _ E) as Hfst.
  rewrite <-Hfst in Hk.
  apply list_elem_of_fmap in Hk as ([k' v] & -> & Hin).
  apply (comprehend_elem_of _ _ _ _ _ E) in Hin as [_ Hin]. by exists v.
Qed.

Lemma dict_comp_Ok_all `{Countable K} {V} (f : K → result V) keys d k :
  dict_comp f keys = Ok d → k ∈ keys → ∃ v, f k = Ok v.
Proof.
  unfold dict_comp. destruct (comprehend f keys) eqn:E; [|done].
  intros _. by eapply comprehend_Ok_all.
Qed.

(** A comprehension of subscripts restricts the dict to the keys. *)
Lemma dict_comp_subscript `{Countable K} {V} (d m : gmap K V) keys k :
  dict_comp (subscript d) keys = Ok m →
  m !! k = if decide (k ∈ keys) then d !! k else None.
Proof.
  intros E. apply option_eq. intros x.
  rewrite (dict_comp_lookup _ _ _ _ _ E), subscript_Ok.
  case_decide; [|split; [by intros [? _]|done]].
  split; [by intros [_ ?]|done].
Qed.

Lemma dict_comp_subscript_total `{Countable K} {V} (d : gmap K V) keys :
  (∀ k, k ∈ keys → is_Some (d !! k)) →
  ∃ m, dict_comp (subscript d) keys = Ok m.
Proof.
  intros Hd. apply dict_comp_total. intros k [v Hv]%Hd.
  exists v. by apply subscript_Ok.
Qed.

Lemma dict_comp_subscript_Raise `{Countable K} {V} (d : gmap K V) keys e :
  dict_comp (subscript d) keys = Raise e →
  e = KeyError ∧ ∃ k, k ∈ keys ∧ d !! k = None.
Proof.
  intros (k & Hk & [? ->]%subscript_Raise)%dict_comp_Raise%comprehend_Raise.
  eauto.
Qed.

Lemma validate_cov_canonical hc mc vc cc hc' mc' vc' cc' :
  _validate_aggr_cols hc mc vc cc = (hc', mc', vc', cc') →
  ∀ p, p ∈ cc' → canonical p.
Proof.
  intros [= _ _ _ <-] p Hp. unfold tuple_of_set in Hp.
  apply elem_of_elements, elem_of_list_to_set, list_elem_of_fmap in Hp
    as (q & -> & _).
  apply sorted_tuple_canonical.
Qed.

(** What normalisation makes of a request. *)
Lemma validate_members hc mc vc cc hc' mc' vc' cc' :
  _validate_aggr_cols hc mc vc cc = (hc', mc', vc', cc') →
  (hc' = true ↔ hc = true ∨ vc ≠ [] ∨ cc ≠ []) ∧
  (∀ k, k ∈ mc' ↔ k ∈ mc ∨ k ∈ vc ∨ ∃ p, p ∈ cc ∧ (k = p.1 ∨ k = p.2)) ∧
  (∀ k, k ∈ vc' ↔ k ∈ vc) ∧
  (∀ p, p ∈ cc' ↔ ∃ q, q ∈ cc ∧ p = sorted_tuple q.1 q.2) ∧
  NoDup mc' ∧ NoDup vc' ∧ NoDup cc'.
Proof.
  intros [= <- <- <- <-]. unfold tuple_of_set.
  repeat split; try apply NoDup_elements.
  - intros [[?| Hv]%orb_true_iff| Hc]%orb_true_iff; auto.
    + right; left. apply bool_decide_eq_true in Hv.
      destruct vc; [simpl in Hv; lia|done].
    + right; right. apply bool_decide_eq_true in Hc.
      destruct cc; [simpl in Hc; lia|done].
  - intros [->|[Hv|Hc]]; [done| |].
    + destruct vc; [done|].
      rewrite (bool_decide_eq_true_2 (0 < _)%nat) by (simpl; lia).
      by rewrite orb_true_r.
    + destruct cc; [done|].
      rewrite (bool_decide_eq_true_2 (0 < length (_ :: cc))%nat)
        by (simpl; lia).
      by rewrite orb_true_r.
  - rewrite elem_of_elements, elem_of_list_to_set, !elem_of_app.
    unfold chain. rewrite list_elem_of_bind.
    intros [?|[?|(p & Hk & ?)]]; auto. right; right. exists p.
    split; [done|].
    apply elem_of_cons in Hk as [->|Hk%list_elem_of_singleton]; auto.
  - rewrite elem_of_elements, elem_of_list_to_set, !elem_of_app.
    unfold chain. rewrite list_elem_of_bind.
    intros [?|[?|(p & ? & Hk)]]; auto. right; right. exists p.
    split; [|done]. destruct Hk as [->| ->]; [left|right; left].
  - by rewrite elem_of_elements, elem_of_list_to_set.
  - by rewrite elem_of_elements, elem_of_list_to_set.
  - rewrite elem_of_elements, elem_of_list_to_set, list_elem_of_fmap.
    intros (q & ? & ?). eauto.
  - rewrite elem_of_elements, elem_of_list_to_set, list_elem_of_fmap.
    intros (q & ? & ?). eauto.
Qed.

Lemma missing_not_all `{Countable K} {V} (d : gmap K V) (keys : list K) k :
  k ∈ keys → d !! k = None → ¬ ∀ k, k ∈ keys → is_Some (d !! k).
Proof. intros Hk Hnone Hall. destruct (Hall k Hk) as [? ?]. congruence. Qed.

Section filter_outcomes.
Context (s : t) (hc : bool) (mc vc : list string) (cc : list (string * string)).
Context (hc' : bool) (mc' vc' : list string) (cc' : list (string * string)).
Hypothesis Hval : _validate_aggr_cols hc mc vc cc = (hc', mc', vc', cc').

Lemma filter_unfold :
  filter s hc mc vc cc =
    (c ← (if hc' then Some <$> count s else Ok None);
     m ← dict_comp (subscript (_mean s)) mc';
     v ← dict_comp (subscript (_var s)) vc';
     cv ← comprehend (subscript (_cov s)) cc';
     Ok (__init__ c m v cv)).
Proof.
  unfold filter. rewrite Hval.
  rewrite (comprehend_ext (λ cols, cov s (Some cols.1) (Some cols.2))
             (subscript (_cov s)) cc'); [done|].
  intros p Hp. simpl. f_equal.
  by apply canonical_fixed, (validate_cov_canonical _ _ _ _ _ _ _ _ Hval).
Qed.

Lemma filter_count_Ok c :
  (if hc' then Some <$> count s else Ok None) = Ok c →
  (hc' = true → is_Some (_count s)) ∧ c = (if hc' then _count s else None).
Proof.
  unfold count. by destruct hc', (_count s); simpl; intros [= <-].
Qed.

Lemma filter_count_Raise e :
  (if hc' then Some <$> count s else Ok None) = Raise e →
  e = RuntimeError ∧ hc' = true ∧ _count s = None.
Proof. unfold count. by destruct hc', (_count s); simpl; intros [= <-]. Qed.

Lemma filter_inv r :
  filter s hc mc vc cc = Ok r →
  (hc' = true → is_Some (_count s)) ∧
  has_all s mc' vc' cc' ∧
  projects s hc' mc' vc' cc' r.
Proof.
  rewrite filter_unfold.
  intros (c & [Hc ->]%filter_count_Ok & (m & Hm & (v & Hv & (cv & Hcv & [= <-])
            %bind_Ok)%bind_Ok)%bind_Ok)%bind_Ok.
  split; [done|]. split; [|split; [done|split; [|split]]].
  - split; [|split].
    + intros k Hk. destruct (dict_comp_Ok_all _ _ _ _ Hm Hk) as [x Hx].
      exists x. by apply subscript_Ok.
    + intros k Hk. destruct (dict_comp_Ok_all _ _ _ _ Hv Hk) as [x Hx].
      exists x. by apply subscript_Ok.
    + intros p Hp. destruct (comprehend_Ok_all _ _ _ _ Hcv Hp) as [x Hx].
      exists x. by apply subscript_Ok.
  - intros k. by apply dict_comp_subscript.
  - intros k. by apply dict_comp_subscript.
  - intros p. rewrite init_canonical_items.
    + apply dict_comp_subscript. unfold dict_comp. by rewrite Hcv.
    + rewrite (comprehend_fst _ _ _ Hcv).
      apply (validate_cov_canonical _ _ _ _ _ _ _ _ Hval).
Qed.

Lemma filter_total :
  (hc' = true → is_Some (_count s)) →
  has_all s mc' vc' cc' →
  ∃ r, filter s hc mc vc cc = Ok r.
Proof.
  intros Hc (Hm & Hv & Hcv). rewrite filter_unfold.
  assert (∃ c, (if hc' then Some <$> count s else Ok None) = Ok c) as [c ->].
  { unfold count. destruct hc'; [|by eexists].
    destruct Hc as [n ->]; [done|]. by eexists. }
  destruct (dict_comp_subscript_total _ _ Hm) as [m ->].
  destruct (dict_comp_subscript_total _ _ Hv) as [v ->].
  destruct (dict_comp_subscript_total _ _ Hcv) as [cv Hcv'].
  unfold dict_comp in Hcv'.
  destruct (comprehend (subscript (_cov s)) cc') as [kvs|]; [|done].
  by eexists.
Qed.

Lemma filter_Raise e :
  filter s hc mc vc cc = Raise e →
  (e = RuntimeError ∧ hc' = true ∧ _count s = None) ∨
  (e = KeyError ∧ (hc' = true → is_Some (_count s)) ∧
   ¬ has_all s mc' vc' cc').
Proof.
  rewrite filter_unfold.
  intros [?%filter_count_Raise|(c & [Hc _]%filter_count_Ok & Hr)]%bind_Raise;
    [by left|right].
  pose proof (@missing_not_all) as Hmiss.
  apply bind_Raise in Hr
    as [(-> & k & ? & ?)%dict_comp_subscript_Raise|(m & _ & Hr)].
  { repeat split; [done|]. intros (Hm & _). by eapply Hmiss. }
  apply bind_Raise in Hr
    as [(-> & k & ? & ?)%dict_comp_subscript_Raise|(v & _ & Hr)].
  { repeat split; [done|]. intros (_ & Hv & _). by eapply Hmiss. }
  apply bind_Raise in Hr as [Hr|(cv & _ & [=])].
  apply dict_comp_Raise, dict_comp_subscript_Raise in Hr
    as (-> & k & ? & ?).
  repeat split; [done|]. intros (_ & _ & Hcv). by eapply Hmiss.
Qed.

End filter_outcomes.

Lemma projects_unique s hc' mc' vc' cc' r1 r2 :
  projects s hc' mc' vc' cc' r1 → projects s hc' mc' vc' cc' r2 → r1 = r2.
Proof.
  intros (Hc1 & Hm1 & Hv1 & Hcv1) (Hc2 & Hm2 & Hv2 & Hcv2).
  destruct r1 as [c1 m1 v1 cv1], r2 as [c2 m2 v2 cv2]; simpl in *.
  f_equal; [congruence|apply map_eq; intros k..].
  - by rewrite Hm1, Hm2.
  - by rewrite Hv1, Hv2.
  - by rewrite Hcv1, Hcv2.
Qed.

(** C4, as the code has it: with the request normalised, [filter] raises
    [RuntimeError] when the count is wanted and the store has none;
    otherwise it raises [KeyError] when the store lacks a requested mean,
    variance or covariance; otherwise it returns the store that holds
    exactly the normalised request, with the values of the source. *)
Theorem filter_outcome s hc mc vc cc hc' mc' vc' cc' :
  _validate_aggr_cols hc mc vc cc = (hc', mc', vc', cc') →
  (hc' = true ∧ _count s = None →
     filter s hc mc vc cc = Raise RuntimeError) ∧
  ((hc' = true → is_Some (_count s)) → ¬ has_all s mc' vc' cc' →
     filter s hc mc vc cc = Raise KeyError) ∧
  ((hc' = true → is_Some (_count s)) → has_all s mc' vc' cc' →
     ∃ r, filter s hc mc vc cc = Ok r ∧ projects s hc' mc' vc' cc' r).
Proof.
  intros Hval. split; [|split].
  - intros [-> Hnone]. rewrite (filter_unfold _ _ _ _ _ _ _ _ _ Hval).
    unfold count. by rewrite Hnone.
  - intros Hc Hnall. destruct (filter s hc mc vc cc) as [r|e] eqn:E.
    + by destruct (filter_inv _ _ _ _ _ _ _ _ _ Hval _ E) as (_ & ? & _).
    + destruct (filter_Raise _ _ _ _ _ _ _ _ _ Hval _ E)
        as [(_ & Ht & Hnone)|(-> & _)]; [|done].
      destruct (Hc Ht) as [? ?]. congruence.
  - intros Hc Hall.
    destruct (filter_total _ _ _ _ _ _ _ _ _ Hval Hc Hall) as [r Hr].
    exists r. split; [done|].
    by destruct (filter_inv _ _ _ _ _ _ _ _ _ Hval _ Hr) as (_ & _ & ?).
Qed.

(** C4, as the specification words it, fails: a store without a count,
    asked for a variance, raises [RuntimeError], which is neither a result
    nor a [KeyError]. *)
Lemma filter_missing_count_is_not_KeyError :
  ¬ ((∃ r, filter store_no_count false [] ["x"] [] = Ok r) ∨
     filter store_no_count false [] ["x"] [] = Raise KeyError).
Proof.
  assert (filter store_no_count false [] ["x"] [] = Raise RuntimeError) as ->
    by by vm_compute.
  by intros [[r ?]|?].
Qed.

(** C5: filtering the result of [filter] with the same request returns that
    result again. *)
Theorem filter_idempotent s hc mc vc cc r :
  filter s hc mc vc cc = Ok r → filter r hc mc vc cc = Ok r.
Proof.
  intros Hr.
  destruct (_validate_aggr_cols hc mc vc cc) as [[[hc' mc'] vc'] cc'] eqn:Hval.
  destruct (filter_inv _ _ _ _ _ _ _ _ _ Hval _ Hr)
    as (Hc & (Hm & Hv & Hcv) & (Pc & Pm & Pv & Pcv)).
  destruct (filter_total r _ _ _ _ _ _ _ _ Hval) as [r' Hr'].
  - intros Ht. rewrite Pc, Ht. auto.
  - split; [|split]; intros k Hk.
    + rewrite Pm, decide_True by done. auto.
    + rewrite Pv, decide_True by done. auto.
    + rewrite Pcv, decide_True by done. auto.
  - rewrite Hr'. f_equal.
    destruct (filter_inv _ _ _ _ _ _ _ _ _ Hval _ Hr')
      as (_ & _ & (Pc' & Pm' & Pv' & Pcv')).
    apply (projects_unique s hc' mc' vc' cc'); [|done].
    split; [|split; [|split]].
    + rewrite Pc', Pc. by destruct hc'.
    + intros k. rewrite Pm', Pm. by case_decide.
    + intros k. rewrite Pv', Pv. by case_decide.
    + intros k. rewrite Pcv', Pcv. by case_decide.
Qed.

Lemma filter_store_xy :
  filter store_xy false ["x"] ["y"] [("y", "x")] = Ok store_xy_filtered.
Proof. by vm_compute. Qed.

Lemma filter_idempotent_witness :
  filter store_xy_filtered false ["x"] ["y"] [("y", "x")]
    = Ok store_xy_filtered.
Proof. apply (filter_idempotent store_xy). by vm_compute. Defined.

Lemma filter_outcome_witness :
  filter store_no_count false [] ["x"] [] = Raise RuntimeError ∧
  filter store_xy false ["z"] [] [] = Raise KeyError ∧
  ∃ r, filter store_xy false ["x"] ["y"] [("y", "x")] = Ok r ∧
       projects store_xy true ["y"; "x"] ["y"] [("x", "y")] r.
Proof.
  split; [|split].
  - apply (filter_outcome store_no_count false [] ["x"] []
             true ["x"] ["x"] []); [by vm_compute|by split].
  - apply (filter_outcome store_xy false ["z"] [] [] false ["z"] [] []).
    + by vm_compute.
    + intros [=].
    + intros (Hm & _). destruct (Hm "z") as [v Hv]; [by left|].
      vm_compute in Hv. discriminate.
  - apply (filter_outcome store_xy false ["x"] ["y"] [("y", "x")]
             true ["y"; "x"] ["y"] [("x", "y")]).
    + by vm_compute.
    + intros _. by eexists.
    + repeat split; intros k Hk;
        repeat (apply elem_of_cons in Hk as [->|Hk]); try (by eexists);
        by apply elem_of_nil in Hk.
Defined.

Lemma canonical_key_invariant_witness :
  cov_invariant store_xy_filtered ∧
  (∃ r, __add__ store_xy store_xy = Ok r ∧
        is_Some (_cov r !! ("x", "y")) ∧ cov_invariant r) ∧
  _cov (__init__ None ∅ ∅ [(("y", "x"), Q2Qc 1); (("x", "y"), Q2Qc 2)])
    = {[ sorted_tuple "y" "x" := Q2Qc 2 ]}.
Proof.
  destruct canonical_key_invariant as (_ & Hfilter & Hadd & Hboth & _).
  split; [|split].
  - apply (Hfilter store_xy false ["x"] ["y"] [("y", "x")]).
    by vm_compute.
  - eexists. split; [vm_compute; reflexivity|]. split; [by eexists|].
    apply (Hadd store_xy store_xy). vm_compute; reflexivity.
  - by apply Hboth.
Defined.

(** ** Merging two stores *)

Lemma Qc_of_Z_neq_0 (n : Z) : n ≠ 0%Z → Qc_of_Z n ≠ 0.
Proof. intros Hn. rewrite <-Z2Qc_inj_0. by intros ?%Z2Qc_inj. Qed.

Lemma Qc_of_Z_pred (n : Z) : Qc_of_Z (n - 1) = Qc_of_Z n - 1.
Proof. by rewrite Z2Qc_inj_sub, Z2Qc_inj_1. Qed.

Lemma truediv_proper (x x' y y' : Qc) :
  x = x' → y = y' → truediv x y = truediv x' y'.
Proof. by intros -> ->. Qed.

Section merge_per_key.
Context (a b : t) (n1 n2 : Z).
Hypothesis Hn1 : _count a = Some n1.
Hypothesis Hn2 : _count b = Some n2.

Lemma add_mean_eval col m1 m2 :
  _mean a !! col = Some m1 → _mean b !! col = Some m2 →
  _add_mean a b col =
    truediv (Qc_of_Z n1 * m1 + Qc_of_Z n2 * m2) (Qc_of_Z (n1 + n2)).
Proof.
  intros H1 H2. unfold _add_mean, count, mean, subscript.
  by rewrite Hn1, Hn2, H1, H2.
Qed.

Lemma add_var_eval col m1 m2 v1 v2 :
  _mean a !! col = Some m1 → _mean b !! col = Some m2 →
  _var a !! col = Some v1 → _var b !! col = Some v2 →
  _add_var a b col =
    (q ← truediv ((m1 - m2) * (m1 - m2) * Qc_of_Z n1 * Qc_of_Z n2)
                 (Qc_of_Z (n1 + n2));
     truediv (v1 * Qc_of_Z (n1 - 1) + v2 * Qc_of_Z (n2 - 1) + q)
             (Qc_of_Z (n1 + n2 - 1))).
Proof.
  intros H1 H2 H3 H4. unfold _add_var, count, mean, var, subscript.
  by rewrite Hn1, Hn2, H1, H2, H3, H4.
Qed.

Lemma add_cov_eval (cols : string * string) m10 m20 m11 m21 c1 c2 :
  _mean a !! cols.1 = Some m10 → _mean b !! cols.1 = Some m20 →
  _mean a !! cols.2 = Some m11 → _mean b !! cols.2 = Some m21 →
  _cov a !! sorted_tuple cols.1 cols.2 = Some c1 →
  _cov b !! sorted_tuple cols.1 cols.2 = Some c2 →
  _add_cov a b cols =
    (q ← truediv ((m10 - m20) * (m11 - m21) * Qc_of_Z n1 * Qc_of_Z n2)
                 (Qc_of_Z (n1 + n2));
     truediv (c1 * Qc_of_Z (n1 - 1) + c2 * Qc_of_Z (n2 - 1) + q)
             (Qc_of_Z (n1 + n2 - 1))).
Proof.
  intros H1 H2 H3 H4 H5 H6. unfold _add_cov, count, mean, cov, subscript.
  by rewrite Hn1, Hn2, H1, H2, H3, H4, H5, H6.
Qed.

End merge_per_key.

(** Each per-key merge is symmetric in the two stores once both counts are
    defined: the lookups fail alike, and the arithmetic is commutative. *)
Section merge_symmetry.
Context (a b : t) (n1 n2 : Z).
Hypothesis Hn1 : _count a = Some n1.
Hypothesis Hn2 : _count b = Some n2.

Lemma add_mean_comm col : _add_mean a b col = _add_mean b a col.
Proof.
  destruct (_mean a !! col) as [m1|] eqn:H1;
    destruct (_mean b !! col) as [m2|] eqn:H2.
  - rewrite (add_mean_eval a b n1 n2 Hn1 Hn2 col m1 m2) by done.
    rewrite (add_mean_eval b a n2 n1 Hn2 Hn1 col m2 m1) by done.
    apply truediv_proper; [ring|by rewrite Z.add_comm].
  - unfold _add_mean, count, mean, subscript. by rewrite Hn1, Hn2, H1, H2.
  - unfold _add_mean, count, mean, subscript. by rewrite Hn1, Hn2, H1, H2.
  - unfold _add_mean, count, mean, subscript. by rewrite Hn1, Hn2, H1, H2.
Qed.

Lemma add_var_comm col : _add_var a b col = _add_var b a col.
Proof.
  destruct (_mean a !! col) as [m1|] eqn:H1;
    destruct (_mean b !! col) as [m2|] eqn:H2;
    destruct (_var a !! col) as [v1|] eqn:H3;
    destruct (_var b !! col) as [v2|] eqn:H4;
    try (unfold _add_var, count, mean, var, subscript;
         by rewrite Hn1, Hn2, ?H1, ?H2, ?H3, ?H4).
  rewrite (add_var_eval a b n1 n2 Hn1 Hn2 col m1 m2 v1 v2) by done.
  rewrite (add_var_eval b a n2 n1 Hn2 Hn1 col m2 m1 v2 v1) by done.
  rewrite (Z.add_comm n2 n1).
  rewrite (truediv_proper ((m2 - m1) * (m2 - m1) * Qc_of_Z n2 * Qc_of_Z n1)
             ((m1 - m2) * (m1 - m2) * Qc_of_Z n1 * Qc_of_Z n2)
             (Qc_of_Z (n1 + n2)) (Qc_of_Z (n1 + n2))) by (done || ring).
  destruct (truediv _ (Qc_of_Z (n1 + n2))) as [q|]; simpl; [|done].
  apply truediv_proper; [ring|done].
Qed.

Lemma add_cov_comm cols : _add_cov a b cols = _add_cov b a cols.
Proof.
  destruct (_mean a !! cols.1) as [m10|] eqn:H1;
    destruct (_mean b !! cols.1) as [m20|] eqn:H2;
    destruct (_mean a !! cols.2) as [m11|] eqn:H3;
    destruct (_mean b !! cols.2) as [m21|] eqn:H4;
    destruct (_cov a !! sorted_tuple cols.1 cols.2) as [c1|] eqn:H5;
    destruct (_cov b !! sorted_tuple cols.1 cols.2) as [c2|] eqn:H6;
    try (unfold _add_cov, count, mean, cov, subscript;
         by rewrite Hn1, Hn2, ?H1, ?H2, ?H3, ?H4, ?H5, ?H6).
  rewrite (add_cov_eval a b n1 n2 Hn1 Hn2 cols m10 m20 m11 m21 c1 c2) by done.
  rewrite (add_cov_eval b a n2 n1 Hn2 Hn1 cols m20 m10 m21 m11 c2 c1) by done.
  rewrite (Z.add_comm n2 n1).
  rewrite (truediv_proper ((m20 - m10) * (m21 - m11) * Qc_of_Z n2 * Qc_of_Z n1)
             ((m10 - m20) * (m11 - m21) * Qc_of_Z n1 * Qc_of_Z n2)
             (Qc_of_Z (n1 + n2)) (Qc_of_Z (n1 + n2))) by (done || ring).
  destruct (truediv _ (Qc_of_Z (n1 + n2))) as [q|]; simpl; [|done].
  apply truediv_proper; [ring|done].
Qed.

End merge_symmetry.

Lemma elem_of_keys `{Countable K} {V} (d : gmap K V) k :
  k ∈ keys d ↔ is_Some (d !! k).
Proof. unfold keys. by rewrite elem_of_elements, elem_of_dom. Qed.

Lemma keys_nil `{Countable K} {V} (d : gmap K V) : keys d = [] ↔ d = ∅.
Proof.
  unfold keys. split.
  - intros Hnil. apply (dom_empty_inv_L (D:=gset K)).
    apply set_eq. intros k. rewrite <-elem_of_elements, Hnil.
    split; [by intros ?%elem_of_nil|by intros ?%not_elem_of_empty].
  - intros ->. by rewrite dom_empty_L, elements_empty.
Qed.

Lemma same_dom_lookup `{Countable K} {V} (d1 d2 : gmap K V) k :
  dom d1 = dom d2 → is_Some (d1 !! k) → is_Some (d2 !! k).
Proof. intros Hd. rewrite <-!elem_of_dom. by rewrite Hd. Qed.

Lemma add_unfold a b n1 n2 :
  _count a = Some n1 → _count b = Some n2 →
  __add__ a b =
    (m ← dict_comp (_add_mean a b) (keys (_mean a));
     v ← dict_comp (_add_var a b) (keys (_var a));
     cv ← comprehend (_add_cov a b) (keys (_cov a));
     Ok (__init__ (Some (n1 + n2)%Z) m v cv)).
Proof. intros H1 H2. unfold __add__, count. by rewrite H1, H2. Qed.

(** Under the precondition, merging in either order is the same
    computation. *)
Lemma add_comm a b n1 n2 :
  _count a = Some n1 → _count b = Some n2 →
  dom (_mean a) = dom (_mean b) →
  dom (_var a) = dom (_var b) →
  dom (_cov a) = dom (_cov b) →
  __add__ a b = __add__ b a.
Proof.
  intros H1 H2 Hm Hv Hc.
  rewrite (add_unfold a b n1 n2), (add_unfold b a n2 n1) by done.
  unfold keys. rewrite Hm, Hv, Hc, (Z.add_comm n2 n1).
  rewrite (dict_comp_ext (_add_mean a b) (_add_mean b a))
    by (intros; by eapply add_mean_comm).
  rewrite (dict_comp_ext (_add_var a b) (_add_var b a))
    by (intros; by eapply add_var_comm).
  rewrite (comprehend_ext (_add_cov a b) (_add_cov b a))
    by (intros; by eapply add_cov_comm).
  done.
Qed.

(** Under the precondition and the invariants, the merge returns. *)
Lemma add_total a b : mergeable a b → well_formed a → ∃ r, __add__ a b = Ok r.
Proof.
  intros ((n1 & n2 & H1 & H2 & Hge1 & Hge2) & Hm & Hv & Hc) (Wv & Wc).
  rewrite (add_unfold a b n1 n2) by done.
  assert (Qc_of_Z (n1 + n2) ≠ 0) as HN by (apply Qc_of_Z_neq_0; lia).
  assert (Qc_of_Z (n1 + n2 - 1) ≠ 0) as HN1 by (apply Qc_of_Z_neq_0; lia).
  destruct (dict_comp_total (_add_mean a b) (keys (_mean a))) as [m ->].
  { intros k [m1 Hm1]%elem_of_keys.
    destruct (same_dom_lookup _ _ k Hm) as [m2 Hm2]; [by eexists|].
    rewrite (add_mean_eval a b n1 n2 H1 H2 k m1 m2), truediv_ok by done.
    by eexists. }
  destruct (dict_comp_total (_add_var a b) (keys (_var a))) as [v ->].
  { intros k [v1 Hv1]%elem_of_keys.
    destruct (same_dom_lookup _ _ k Hv) as [v2 Hv2]; [by eexists|].
    destruct (Wv k) as [m1 Hm1]; [by eexists|].
    destruct (same_dom_lookup _ _ k Hm) as [m2 Hm2]; [by eexists|].
    rewrite (add_var_eval a b n1 n2 H1 H2 k m1 m2 v1 v2) by done.
    rewrite truediv_ok by done; simpl. rewrite truediv_ok by done.
    by eexists. }
  destruct (comprehend_total (_add_cov a b) (keys (_cov a))) as [cv ->];
    [|by eexists].
  intros p [c1 Hc1]%elem_of_keys.
  destruct (Wc p) as (Hcan & [m10 Hm10] & [m11 Hm11]); [by eexists|].
  destruct (same_dom_lookup _ _ p Hc) as [c2 Hc2]; [by eexists|].
  destruct (same_dom_lookup _ _ p.1 Hm) as [m20 Hm20]; [by eexists|].
  destruct (same_dom_lookup _ _ p.2 Hm) as [m21 Hm21]; [by eexists|].
  rewrite (add_cov_eval a b n1 n2 H1 H2 p m10 m20 m11 m21 c1 c2)
    by (done || by rewrite (proj1 (canonical_fixed p) Hcan)).
  rewrite truediv_ok by done; simpl. rewrite truediv_ok by done.
  by eexists.
Qed.

(** C8: under the merge precondition, [a + b] and [b + a] are the same
    store (count, means, variances, covariances), in exact arithmetic; and
    on stores that satisfy the invariants the merge does return. *)
Theorem add_commutative (a b : t) :
  mergeable a b →
  __add__ a b = __add__ b a ∧
  (well_formed a → ∃ r, __add__ a b = Ok r ∧ __add__ b a = Ok r).
Proof.
  intros Hab.
  assert (__add__ a b = __add__ b a) as Hcomm.
  { destruct Hab as ((n1 & n2 & H1 & H2 & _) & Hm & Hv & Hc).
    by apply (add_comm a b n1 n2). }
  split; [done|]. intros Hwf.
  destruct (add_total a b Hab Hwf) as [r Hr]. exists r.
  by rewrite <-Hcomm.
Qed.

Lemma mergeable_scenario : mergeable store_A store_B.
Proof.
  split; [|by vm_compute].
  exists 3%Z, 4%Z. repeat split; lia.
Defined.

Lemma well_formed_store_A : well_formed store_A.
Proof.
  split.
  - intros k [v Hv]. unfold store_A in *; simpl in *.
    apply lookup_singleton_Some in Hv as [<- _]. by eexists.
  - intros p [v Hv]. unfold store_A in Hv; simpl in Hv.
    by rewrite lookup_empty in Hv.
Defined.

Lemma add_commutative_witness :
  __add__ store_A store_B = __add__ store_B store_A ∧
  ∃ r, __add__ store_A store_B = Ok r ∧ __add__ store_B store_A = Ok r.
Proof.
  destruct (add_commutative store_A store_B mergeable_scenario) as [Hc Hok].
  split; [exact Hc|]. exact (Hok well_formed_store_A).
Defined.

(** *** The count of a merge *)

Lemma comprehend_all_Raise {K V} (f : K → result V) keys e :
  (∀ k, f k = Raise e) →
  comprehend f keys = match keys with [] => Ok [] | _ => Raise e end.
Proof. intros Hf. destruct keys as [|k keys]; simpl; [done|]. by rewrite Hf. Qed.

Lemma add_no_count_l a b :
  _count a = None →
  __add__ a b =
    match keys (_mean a), keys (_var a), keys (_cov a) with
    | [], [], [] => Ok (__init__ None ∅ ∅ [])
    | _, _, _ => Raise RuntimeError
    end.
Proof.
  intros Hnone. unfold __add__, dict_comp. rewrite Hnone; simpl.
  rewrite (comprehend_all_Raise (_add_mean a b) _ RuntimeError)
    by (intros; unfold _add_mean, count; by rewrite Hnone).
  rewrite (comprehend_all_Raise (_add_var a b) _ RuntimeError)
    by (intros; unfold _add_var, count; by rewrite Hnone).
  rewrite (comprehend_all_Raise (_add_cov a b) _ RuntimeError)
    by (intros; unfold _add_cov, count; by rewrite Hnone).
  by destruct (keys (_mean a)), (keys (_var a)), (keys (_cov a)).
Qed.

(** C3, as the code has it: with both counts defined the merged count is
    their sum, and under the merge precondition the merge returns it; a
    left operand with a count and a right operand without one raises
    [RuntimeError]; a left operand without a count gives a result without
    a count when it has no entries at all, whatever the right operand, and
    raises [RuntimeError] when it has any entry. *)
Theorem add_count :
  (∀ a b n1 n2 r,
     _count a = Some n1 → _count b = Some n2 → __add__ a b = Ok r →
     _count r = Some (n1 + n2)%Z) ∧
  (∀ a b, mergeable a b → well_formed a →
     ∃ r n1 n2, _count a = Some n1 ∧ _count b = Some n2 ∧
                __add__ a b = Ok r ∧ _count r = Some (n1 + n2)%Z) ∧
  (∀ a b n1,
     _count a = Some n1 → _count b = None →
     __add__ a b = Raise RuntimeError) ∧
  (∀ a b,
     _count a = None → _mean a = ∅ → _var a = ∅ → _cov a = ∅ →
     ∃ r, __add__ a b = Ok r ∧ _count r = None) ∧
  (∀ a b,
     _count a = None → _mean a ≠ ∅ ∨ _var a ≠ ∅ ∨ _cov a ≠ ∅ →
     __add__ a b = Raise RuntimeError).
Proof.
  assert (∀ a b n1 n2 r,
     _count a = Some n1 → _count b = Some n2 → __add__ a b = Ok r →
     _count r = Some (n1 + n2)%Z) as Hsum.
  { intros a b n1 n2 r H1 H2. rewrite (add_unfold a b n1 n2) by done.
    by intros (m & _ & (v & _ & (cv & _ & [= <-])%bind_Ok)%bind_Ok)%bind_Ok. }
  split; [done|]. split; [|split; [|split]].
  - intros a b Hab Hwf. destruct (add_total a b Hab Hwf) as [r Hr].
    destruct Hab as ((n1 & n2 & H1 & H2 & _) & _).
    exists r, n1, n2. eauto.
  - intros a b n1 H1 H2. unfold __add__, count. by rewrite H1, H2.
  - intros a b Hnone Hm Hv Hc. rewrite add_no_count_l by done.
    rewrite (proj2 (keys_nil _) Hm), (proj2 (keys_nil _) Hv),
      (proj2 (keys_nil _) Hc).
    by eexists.
  - intros a b Hnone Hne. rewrite add_no_count_l by done.
    destruct (keys (_mean a)) eqn:Em; [|done].
    destruct (keys (_var a)) eqn:Ev; [|done].
    destruct (keys (_cov a)) eqn:Ec; [|done].
    apply keys_nil in Em, Ev, Ec. by destruct Hne as [?|[?|?]].
Qed.

Lemma add_count_witness :
  (∃ r, __add__ store_A store_B = Ok r ∧ _count r = Some 7%Z) ∧
  (∃ r n1 n2, _count store_A = Some n1 ∧ _count store_B = Some n2 ∧
              __add__ store_A store_B = Ok r ∧
              _count r = Some (n1 + n2)%Z) ∧
  __add__ store_empty_counted store_empty = Raise RuntimeError ∧
  (∃ r, __add__ store_empty store_A = Ok r ∧ _count r = None) ∧
  __add__ store_no_count store_A = Raise RuntimeError.
Proof.
  destruct add_count as (Hsum & Hmerge & Hright & Hleft & Hleft').
  split; [|split; [|split; [|split]]].
  - eexists. split; [by vm_compute|].
    apply (Hsum store_A store_B 3%Z 4%Z); by vm_compute.
  - exact (Hmerge store_A store_B mergeable_scenario well_formed_store_A).
  - by apply (Hright store_empty_counted store_empty 3%Z).
  - by apply (Hleft store_empty store_A).
  - apply (Hleft' store_no_count store_A); [done|].
    left. intros Hm. by apply (f_equal (lookup "x")) in Hm.
Defined.

(** C3, as the specification words it, fails: the left operand has a count,
    the right one has none, and the merge raises instead of returning a
    store without a count. *)
Lemma add_count_undefined_right_raises :
  _count store_empty_counted = Some 3%Z ∧ _count store_empty = None ∧
  ¬ ∃ r, __add__ store_empty_counted store_empty = Ok r ∧ _count r = None.
Proof.
  repeat split. intros (r & Hr & _). by vm_compute in Hr.
Qed.

(** *** The merged variance *)

Lemma spec_pooled_variance_eval a b col n1 n2 m1 m2 v1 v2 :
  _count a = Some n1 → _count b = Some n2 →
  (n1 + n2 ≠ 0)%Z → (n1 + n2 ≠ 1)%Z →
  _mean a !! col = Some m1 → _mean b !! col = Some m2 →
  _var a !! col = Some v1 → _var b !! col = Some v2 →
  _add_var a b col = Ok (spec_pooled_variance n1 n2 m1 m2 v1 v2).
Proof.
  intros H1 H2 HN HN1 Hm1 Hm2 Hv1 Hv2.
  rewrite (add_var_eval a b n1 n2 H1 H2 col m1 m2 v1 v2) by done.
  assert (Qc_of_Z (n1 + n2) ≠ 0) as HQ by by apply Qc_of_Z_neq_0.
  assert (Qc_of_Z (n1 + n2 - 1) ≠ 0) as HQ1 by (apply Qc_of_Z_neq_0; lia).
  rewrite truediv_ok by done; simpl. rewrite truediv_ok by done.
  f_equal. unfold spec_pooled_variance. cbn [Qcpower].
  rewrite !Qc_of_Z_pred, Z2Qc_inj_add in *. by field.
Qed.

Lemma total_app xs ys : total (xs ++ ys) = total xs + total ys.
Proof.
  unfold total. induction xs as [|x xs IH]; simpl; [ring|].
  rewrite IH. ring.
Qed.

Lemma Qc_of_nat_S (n : nat) :
  Qc_of_Z (Z.of_nat (S n)) = Qc_of_Z (Z.of_nat n) + 1.
Proof. by rewrite Nat2Z.inj_succ, <-Z.add_1_r, Z2Qc_inj_add, Z2Qc_inj_1. Qed.

(** The sum of squared deviations from any centre [m], expanded. *)
Lemma total_sq_dev xs m :
  total ((λ d, d * d) <$> ((λ x, x - m) <$> xs))
  = total ((λ x, x * x) <$> xs) - 2 * m * total xs
    + Qc_of_Z (Z.of_nat (length xs)) * m * m.
Proof.
  unfold total. induction xs as [|x xs IH].
  - change (Qc_of_Z (Z.of_nat (length (@nil Qc)))) with (Qc_of_Z 0).
    rewrite Z2Qc_inj_0. cbn [fmap list_fmap foldr]. ring.
  - rewrite !fmap_cons, length_cons, Qc_of_nat_S. cbn [foldr].
    rewrite IH. ring.
Qed.

Lemma sample_mean_eval xs :
  xs ≠ [] →
  sample_mean xs = Ok (total xs / Qc_of_Z (Z.of_nat (length xs))).
Proof.
  intros Hxs. unfold sample_mean. apply truediv_ok, Qc_of_Z_neq_0.
  destruct xs; [done|]. simpl. lia.
Qed.

Lemma sample_var_eval xs :
  (2 ≤ length xs)%nat →
  let n := Qc_of_Z (Z.of_nat (length xs)) in
  let m := total xs / n in
  sample_var xs =
    Ok ((total ((λ x, x * x) <$> xs) - 2 * m * total xs + n * m * m)
        / (n - 1)).
Proof.
  intros Hlen n m. unfold sample_var.
  rewrite sample_mean_eval by (intros ->; simpl in Hlen; lia). simpl.
  rewrite truediv_ok by (apply Qc_of_Z_neq_0; lia).
  by rewrite total_sq_dev, Qc_of_Z_pred.
Qed.

Lemma keys_singleton `{Countable K} {V} (k : K) (v : V) :
  keys ({[ k := v ]} : gmap K V) = [k].
Proof. unfold keys. by rewrite dom_singleton_L, elements_singleton. Qed.

Lemma keys_empty `{Countable K} {V} : keys (∅ : gmap K V) = [].
Proof. by apply keys_nil. Qed.

(** Merging two stores that hold one variable each. *)
Lemma add_single col n1 n2 m1 m2 v1 v2 :
  (n1 + n2 ≠ 0)%Z → (n1 + n2 ≠ 1)%Z →
  __add__ (mk (Some n1) {[ col := m1 ]} {[ col := v1 ]} ∅)
          (mk (Some n2) {[ col := m2 ]} {[ col := v2 ]} ∅)
  = Ok (mk (Some (n1 + n2)%Z)
          {[ col := (Qc_of_Z n1 * m1 + Qc_of_Z n2 * m2) / Qc_of_Z (n1 + n2) ]}
          {[ col := spec_pooled_variance n1 n2 m1 m2 v1 v2 ]} ∅).
Proof.
  intros HN HN1.
  set (a := mk (Some n1) {[ col := m1 ]} {[ col := v1 ]} ∅).
  set (b := mk (Some n2) {[ col := m2 ]} {[ col := v2 ]} ∅).
  rewrite (add_unfold a b n1 n2) by done.
  change (_mean a) with ({[ col := m1 ]} : gmap string Qc).
  change (_var a) with ({[ col := v1 ]} : gmap string Qc).
  change (_cov a) with (∅ : gmap (string * string) Qc).
  rewrite !keys_singleton, keys_empty. unfold dict_comp. cbn [comprehend].
  rewrite (add_mean_eval a b n1 n2 eq_refl eq_refl col m1 m2)
    by apply lookup_singleton_eq.
  rewrite truediv_ok by by apply Qc_of_Z_neq_0.
  rewrite (spec_pooled_variance_eval a b col n1 n2 m1 m2 v1 v2)
    by (done || apply lookup_singleton_eq).
  simpl. unfold __init__, dict_of_items; simpl.
  by rewrite !insert_empty.
Qed.

Lemma read_column_eval col xs :
  (2 ≤ length xs)%nat →
  ∃ m v,
    m = total xs / Qc_of_Z (Z.of_nat (length xs)) ∧
    v = (total ((λ x, x * x) <$> xs) - 2 * m * total xs
         + Qc_of_Z (Z.of_nat (length xs)) * m * m)
        / (Qc_of_Z (Z.of_nat (length xs)) - 1) ∧
    sample_mean xs = Ok m ∧ sample_var xs = Ok v ∧
    read_column col xs =
      Ok (mk (Some (Z.of_nat (length xs))) {[ col := m ]} {[ col := v ]} ∅).
Proof.
  intros Hlen. eexists _, _. split; [done|]. split; [done|].
  assert (xs ≠ []) as Hxs by (intros ->; simpl in Hlen; lia).
  pose proof (sample_var_eval xs Hlen) as Hv. cbv zeta in Hv.
  split; [by apply sample_mean_eval|]. split; [done|].
  unfold read_column. by rewrite sample_mean_eval, Hv.
Qed.

Lemma add_var_of_result a b r col x :
  __add__ a b = Ok r → is_Some (_var a !! col) → _add_var a b col = Ok x →
  var r (Some col) = Ok x.
Proof.
  unfold __add__.
  intros (c & _ & (m & _ & (v & Hv & (cv & _ & [= <-])%bind_Ok)%bind_Ok)
            %bind_Ok)%bind_Ok Hcol Hx.
  simpl. apply subscript_Ok, (dict_comp_lookup _ _ _ _ _ Hv).
  split; [by apply elem_of_keys|done].
Qed.

(** The merge of the stores of two samples is the store of their
    concatenation. *)
Lemma add_read_column col xs ys :
  (2 ≤ length xs)%nat → (2 ≤ length ys)%nat →
  ∃ sa sb sab,
    read_column col xs = Ok sa ∧ read_column col ys = Ok sb ∧
    read_column col (xs ++ ys) = Ok sab ∧ __add__ sa sb = Ok sab.
Proof.
  intros Hxs Hys.
  assert (2 ≤ length (xs ++ ys))%nat as Hxys by (rewrite length_app; lia).
  destruct (read_column_eval col xs Hxs) as (m1 & v1 & Em1 & Ev1 & _ & _ & ->).
  destruct (read_column_eval col ys Hys) as (m2 & v2 & Em2 & Ev2 & _ & _ & ->).
  destruct (read_column_eval col (xs ++ ys) Hxys)
    as (m & v & Em & Ev & _ & _ & ->).
  eexists _, _, _. repeat split.
  rewrite add_single by lia.
  rewrite fmap_app, !total_app, length_app, Nat2Z.inj_add in *.
  set (n1 := Z.of_nat (length xs)) in *.
  set (n2 := Z.of_nat (length ys)) in *.
  assert (Qc_of_Z n1 ≠ 0) by (apply Qc_of_Z_neq_0; lia).
  assert (Qc_of_Z n2 ≠ 0) by (apply Qc_of_Z_neq_0; lia).
  assert (Qc_of_Z n1 + Qc_of_Z n2 ≠ 0)
    by (rewrite <-Z2Qc_inj_add; apply Qc_of_Z_neq_0; lia).
  assert (Qc_of_Z n1 - 1 ≠ 0)
    by (rewrite <-Qc_of_Z_pred; apply Qc_of_Z_neq_0; lia).
  assert (Qc_of_Z n2 - 1 ≠ 0)
    by (rewrite <-Qc_of_Z_pred; apply Qc_of_Z_neq_0; lia).
  assert (Qc_of_Z n1 + Qc_of_Z n2 - 1 ≠ 0)
    by (rewrite <-Z2Qc_inj_add, <-Qc_of_Z_pred; apply Qc_of_Z_neq_0; lia).
  rewrite Z2Qc_inj_add in *.
  f_equal. f_equal.
  - f_equal. subst m m1 m2. by field.
  - f_equal. unfold spec_pooled_variance. cbn [Qcpower].
    subst v v1 v2 m m1 m2. by field.
Qed.

Lemma single_store_eq (k : string) (n n' : Z) (m m' v v' : Qc) :
  n = n' → (m == m')%Q → (v == v')%Q →
  Ok (mk (Some n) {[ k := m ]} {[ k := v ]} ∅)
  = Ok (mk (Some n') {[ k := m' ]} {[ k := v' ]} ∅).
Proof. intros -> Hm Hv. by rewrite (Qc_is_canon _ _ Hm), (Qc_is_canon _ _ Hv). Qed.

Lemma read_column_scenario :
  read_column "x" sample_A = Ok store_A ∧
  read_column "x" sample_B = Ok store_B ∧
  read_column "x" (sample_A ++ sample_B) = Ok store_AB.
Proof.
  split; [|split].
  - destruct (read_column_eval "x" sample_A)
      as (m & v & -> & -> & _ & _ & ->); [simpl; lia|].
    apply single_store_eq; vm_compute; reflexivity.
  - destruct (read_column_eval "x" sample_B)
      as (m & v & -> & -> & _ & _ & ->); [simpl; lia|].
    apply single_store_eq; vm_compute; reflexivity.
  - destruct (read_column_eval "x" (sample_A ++ sample_B))
      as (m & v & -> & -> & _ & _ & ->); [simpl; lia|].
    apply single_store_eq; vm_compute; reflexivity.
Qed.

Lemma add_scenario : __add__ store_A store_B = Ok store_AB.
Proof.
  unfold store_A, store_B. rewrite add_single by lia.
  apply single_store_eq; vm_compute; reflexivity.
Qed.

(** C1, with the numbers of the scenario put right: for each variable,
    [__add__] computes the pooled variance by the formula of the
    specification; on the stores of two samples of at least two
    observations each it returns the store of the concatenated sample, so
    the merged variance is the sample variance of the concatenation; and
    the samples 1,2,3 and 4,5,6,7 merge into count 7, mean 4 and variance
    14/3, the direct statistics of 1,...,7. *)
Theorem add_pooled_variance :
  (∀ a b col n1 n2 m1 m2 v1 v2,
     count a = Ok n1 → count b = Ok n2 → (2 ≤ n1)%Z → (2 ≤ n2)%Z →
     mean a (Some col) = Ok m1 → mean b (Some col) = Ok m2 →
     var a (Some col) = Ok v1 → var b (Some col) = Ok v2 →
     _add_var a b col = Ok (spec_pooled_variance n1 n2 m1 m2 v1 v2) ∧
     ∀ r, __add__ a b = Ok r →
          var r (Some col) = Ok (spec_pooled_variance n1 n2 m1 m2 v1 v2)) ∧
  (∀ col xs ys,
     (2 ≤ length xs)%nat → (2 ≤ length ys)%nat →
     ∃ sa sb sab,
       read_column col xs = Ok sa ∧ read_column col ys = Ok sb ∧
       read_column col (xs ++ ys) = Ok sab ∧ __add__ sa sb = Ok sab) ∧
  read_column "x" sample_A = Ok store_A ∧
  read_column "x" sample_B = Ok store_B ∧
  read_column "x" (sample_A ++ sample_B) = Ok store_AB ∧
  __add__ store_A store_B = Ok store_AB.
Proof.
  split; [|split; [apply add_read_column|]].
  - intros a b col n1 n2 m1 m2 v1 v2 H1 H2 Hge1 Hge2 Hm1 Hm2 Hv1 Hv2.
    unfold count in H1, H2.
    destruct (_count a) as [n1'|] eqn:E1; [|done].
    destruct (_count b) as [n2'|] eqn:E2; [|done].
    injection H1 as ->. injection H2 as ->.
    apply subscript_Ok in Hm1, Hm2, Hv1, Hv2.
    assert (_add_var a b col = Ok (spec_pooled_variance n1 n2 m1 m2 v1 v2))
      as Hvar by (apply spec_pooled_variance_eval; done || lia).
    split; [done|]. intros r Hr.
    by apply (add_var_of_result a b).
  - destruct read_column_scenario as (HA & HB & HAB).
    exact (conj HA (conj HB (conj HAB add_scenario))).
Qed.

Lemma add_pooled_variance_witness :
  _add_var store_A store_B "x"
    = Ok (spec_pooled_variance 3 4 (Q2Qc 2) (Q2Qc (11 # 2))
            (Q2Qc 1) (Q2Qc (5 # 3))) ∧
  ∃ sa sb sab,
    read_column "x" sample_A = Ok sa ∧ read_column "x" sample_B = Ok sb ∧
    read_column "x" (sample_A ++ sample_B) = Ok sab ∧ __add__ sa sb = Ok sab.
Proof.
  destruct add_pooled_variance as (Hformula & Hexact & _).
  split.
  - apply (Hformula store_A store_B "x"); reflexivity || lia.
  - apply (Hexact "x" sample_A sample_B); simpl; lia.
Defined.

(** C1, with the numbers of the specification, fails: the merge of the two
    scenario stores has mean 4 and variance 14/3, as the concatenated sample
    has; neither the merge nor the direct statistics give 27/7 or 80/21. *)
Lemma add_scenario_numbers_differ :
  __add__ store_A store_B ≠ Ok store_AB_scenario ∧
  read_column "x" (sample_A ++ sample_B) ≠ Ok store_AB_scenario ∧
  (¬ ∃ r, __add__ store_A store_B = Ok r ∧
          mean r (Some "x") = Ok (Q2Qc (27 # 7))) ∧
  (¬ ∃ r, __add__ store_A store_B = Ok r ∧
          var r (Some "x") = Ok (Q2Qc (80 # 21))).
Proof.
  destruct read_column_scenario as (_ & _ & ->). rewrite add_scenario.
  assert (mean store_AB_scenario (Some "x") ≠ mean store_AB (Some "x")) as Hne
    by (vm_compute; discriminate).
  repeat split.
  - intros H. apply Hne. f_equal. by apply (inj Ok).
  - intros H. apply Hne. f_equal. by apply (inj Ok).
  - intros (r & [= <-] & Hm). vm_compute in Hm. discriminate.
  - intros (r & [= <-] & Hv). vm_compute in Hv. discriminate.
Qed.

(** * Further properties of the code *)

(** ** Ratio covariance *)

Lemma truediv_Ok_inv (x y z : Qc) : truediv x y = Ok z → y ≠ 0 ∧ z = x / y.
Proof. unfold truediv. destruct (decide (y = 0)); [done|]. by intros [= <-]. Qed.

Lemma truediv_Raise_inv (x y : Qc) e :
  truediv x y = Raise e → y = 0 ∧ e = ZeroDivisionError.
Proof. unfold truediv. destruct (decide (y = 0)); [|done]. by intros [= <-]. Qed.

Lemma cov_comm (s : t) (a b : option string) : cov s a b = cov s b a.
Proof. destruct a, b; simpl; try done. by rewrite sorted_tuple_comm. Qed.

(** Strip the leading binds of a computation known to return. *)
Ltac unbind H :=
  repeat (let x := fresh "x" in
          let Hx := fresh "Hx" in
          apply bind_Ok in H as (x & Hx & H)).

Lemma ratio_cov_eval (s : t) (ln ld rn rd : option string)
    (a b c d c1 c2 c3 c4 : Qc) :
  mean s ln = Ok a → mean s ld = Ok b →
  mean s rn = Ok c → mean s rd = Ok d →
  cov s ln rn = Ok c1 → cov s ln rd = Ok c2 →
  cov s ld rn = Ok c3 → cov s ld rd = Ok c4 →
  ratio_cov s ln ld rn rd =
    (lr ← truediv a b;
     rr ← truediv c d;
     q ← truediv (c1 - c2 * rr - c3 * lr + c4 * lr * rr) b;
     truediv q d).
Proof.
  intros Ha Hb Hc Hd H1 H2 H3 H4. unfold ratio_cov.
  rewrite Ha, Hb; simpl. destruct (truediv a b); simpl; [|done].
  rewrite Hc, Hd; simpl. destruct (truediv c d); simpl; [|done].
  rewrite H1, H2, H3, H4; simpl.
  by destruct (truediv _ b).
Qed.

Lemma ratio_cov_inv (s : t) (ln ld rn rd : option string) (v : Qc) :
  ratio_cov s ln ld rn rd = Ok v →
  ∃ a b c d c1 c2 c3 c4,
    mean s ln = Ok a ∧ mean s ld = Ok b ∧
    mean s rn = Ok c ∧ mean s rd = Ok d ∧
    cov s ln rn = Ok c1 ∧ cov s ln rd = Ok c2 ∧
    cov s ld rn = Ok c3 ∧ cov s ld rd = Ok c4 ∧
    b ≠ 0 ∧ d ≠ 0 ∧
    v = (c1 - c2 * (c / d) - c3 * (a / b) + c4 * (a / b) * (c / d)) / b / d.
Proof.
  unfold ratio_cov. intros H. unbind H.
  match goal with
  | Ha : mean s ln = Ok ?a, Hb : mean s ld = Ok ?b,
    Hc : mean s rn = Ok ?c, Hd : mean s rd = Ok ?d,
    H1 : cov s ln rn = Ok ?c1, H2 : cov s ln rd = Ok ?c2,
    H3 : cov s ld rn = Ok ?c3, H4 : cov s ld rd = Ok ?c4 |- _ =>
      exists a, b, c, d, c1, c2, c3, c4
  end.
  repeat match goal with
  | Hdiv : truediv _ _ = Ok _ |- _ =>
      apply truediv_Ok_inv in Hdiv as [? ->]
  end.
  repeat match goal with
  | Hm : mean s ?k = Ok ?u, Hm' : mean s ?k = Ok ?w |- _ =>
      assert_fails (constr_eq u w);
      assert (w = u) as -> by congruence; clear Hm'
  end.
  repeat split; try done.
Qed.



(** X2: [ratio_cov] is symmetric in its two ratios: whenever it returns a
    value for [(ln/ld, rn/rd)], it returns the same value for
    [(rn/rd, ln/ld)]. *)
Theorem ratio_cov_symmetric (s : t) (ln ld rn rd : option string) (v : Qc) :
  ratio_cov s ln ld rn rd = Ok v → ratio_cov s rn rd ln ld = Ok v.
Proof.
  intros (a & b & c & d & c1 & c2 & c3 & c4 & Ha & Hb & Hc & Hd
          & H1 & H2 & H3 & H4 & Hb0 & Hd0 & ->)%ratio_cov_inv.
  rewrite (cov_comm s ln rn) in H1. rewrite (cov_comm s ln rd) in H2.
  rewrite (cov_comm s ld rn) in H3. rewrite (cov_comm s ld rd) in H4.
  rewrite (ratio_cov_eval s rn rd ln ld c d a b c1 c3 c2 c4) by done.
  rewrite !truediv_ok by done; simpl.
  rewrite truediv_ok by done; simpl. rewrite truediv_ok by done.
  f_equal. by field.
Qed.

Lemma ratio_cov_symmetric_witness :
  ratio_cov store_xy_full (Some "y") (Some "x") (Some "x") (Some "y")
    = Ok (Q2Qc (-1 # 4)).
Proof.
  apply (ratio_cov_symmetric store_xy_full (Some "x") (Some "y")
           (Some "y") (Some "x")).
  by vm_compute.
Defined.

(** X3: over constant denominators the ratio covariance is the plain
    covariance: [ratio_cov(x, None, y, None)] is [cov(x, y)] whenever the
    two means and the covariance are available. *)
Theorem ratio_cov_none_denoms (s : t) (x y : option string) (mx my c : Qc) :
  mean s x = Ok mx → mean s y = Ok my → cov s x y = Ok c →
  ratio_cov s x None y None = Ok c.
Proof.
  intros Hx Hy Hc.
  rewrite (ratio_cov_eval s x None y None mx 1 my 1 c 0 0 0)
    by (done || by destruct x, y).
  repeat (rewrite truediv_ok by discriminate; cbv beta iota delta [mbind result_bind]).
  f_equal. field. discriminate.
Qed.

Lemma ratio_cov_none_denoms_witness :
  ratio_cov store_xy (Some "y") None (Some "x") None = Ok (Q2Qc (1 # 2)).
Proof.
  apply (ratio_cov_none_denoms store_xy (Some "y") (Some "x")
           (Q2Qc 4) (Q2Qc 2)); reflexivity.
Defined.



Lemma mean_Raise (s : t) k e : mean s k = Raise e → mean s k = Raise KeyError.
Proof.
  destruct k as [k|]; simpl; [|done]. intros H.
  by apply subscript_Raise in H as H'; destruct H' as [_ ->].
Qed.

Lemma var_Raise (s : t) k e : var s k = Raise e → var s k = Raise KeyError.
Proof.
  destruct k as [k|]; simpl; [|done]. intros H.
  by apply subscript_Raise in H as H'; destruct H' as [_ ->].
Qed.

Lemma cov_Raise (s : t) l r e : cov s l r = Raise e → cov s l r = Raise KeyError.
Proof.
  destruct l as [l|], r as [r|]; simpl; try done. intros H.
  by apply subscript_Raise in H as H'; destruct H' as [_ ->].
Qed.

(** Split a computation known to raise at each of its binds. *)
Ltac unbind_raise H :=
  repeat (let x := fresh "x" in
          let Hx := fresh "Hx" in
          apply bind_Raise in H as [H|(x & Hx & H)]).

(** X5: the two ratio estimators never consult the count.  When
    [ratio_var] raises, it is [KeyError] with one of its five lookups
    absent, or [ZeroDivisionError] with a zero denominator mean; when
    [ratio_cov] raises, it is [KeyError] with one of its eight lookups
    absent, or [ZeroDivisionError] with one of the two denominator means
    zero. *)
Theorem ratio_errors :
  (∀ (s : t) (n d : option string) e,
     ratio_var s n d = Raise e →
     (e = KeyError ∧
      (mean s d = Raise KeyError ∨ var s n = Raise KeyError ∨
       cov s n d = Raise KeyError ∨ mean s n = Raise KeyError ∨
       var s d = Raise KeyError)) ∨
     (e = ZeroDivisionError ∧ mean s d = Ok 0)) ∧
  (∀ (s : t) (ln ld rn rd : option string) e,
     ratio_cov s ln ld rn rd = Raise e →
     (e = KeyError ∧
      (mean s ln = Raise KeyError ∨ mean s ld = Raise KeyError ∨
       mean s rn = Raise KeyError ∨ mean s rd = Raise KeyError ∨
       cov s ln rn = Raise KeyError ∨ cov s ln rd = Raise KeyError ∨
       cov s ld rn = Raise KeyError ∨ cov s ld rd = Raise KeyError)) ∨
     (e = ZeroDivisionError ∧ (mean s ld = Ok 0 ∨ mean s rd = Ok 0))).
Proof.
  split.
  - intros s n d e H. unfold ratio_var in H. unbind_raise H;
      try (assert (e = KeyError ∧
                   (mean s d = Raise KeyError ∨ var s n = Raise KeyError ∨
                    cov s n d = Raise KeyError ∨ mean s n = Raise KeyError ∨
                    var s d = Raise KeyError)) as ?;
           [|by left];
           match goal with
           | Hm : mean s d = Raise _ |- _ =>
               pose proof (mean_Raise _ _ _ Hm); split; [congruence|tauto]
           | Hm : var s n = Raise _ |- _ =>
               pose proof (var_Raise _ _ _ Hm); split; [congruence|tauto]
           | Hm : cov s n d = Raise _ |- _ =>
               pose proof (cov_Raise _ _ _ _ Hm); split; [congruence|tauto]
           | Hm : mean s n = Raise _ |- _ =>
               pose proof (mean_Raise _ _ _ Hm); split; [congruence|tauto]
           | Hm : var s d = Raise _ |- _ =>
               pose proof (var_Raise _ _ _ Hm); split; [congruence|tauto]
           end).
    all: right; apply truediv_Raise_inv in H as [H0 ->]; split; [done|].
    all: repeat match goal with
           | Hm : mean _ ?k = Ok ?u, Hm' : mean _ ?k = Ok ?w |- _ =>
               assert_fails (constr_eq u w);
               assert (w = u) as -> by congruence; clear Hm'
           end.
    all: try (apply Qcmult_integral in H0 as [H0|H0]); congruence.
  - intros s ln ld rn rd e H. unfold ratio_cov in H. unbind_raise H;
      try (left;
           match goal with
           | Hm : mean s _ = Raise _ |- _ =>
               pose proof (mean_Raise _ _ _ Hm); split; [congruence|tauto]
           | Hm : cov s _ _ = Raise _ |- _ =>
               pose proof (cov_Raise _ _ _ _ Hm); split; [congruence|tauto]
           end).
    all: right; apply truediv_Raise_inv in H as [H0 ->]; split; [done|].
    all: subst; tauto.
Qed.

Lemma ratio_errors_witness :
  (KeyError = KeyError ∧
   (mean store_no_count (Some "y") = Raise KeyError ∨
    var store_no_count (Some "x") = Raise KeyError ∨
    cov store_no_count (Some "x") (Some "y") = Raise KeyError ∨
    mean store_no_count (Some "x") = Raise KeyError ∨
    var store_no_count (Some "y") = Raise KeyError)) ∨
  (KeyError = ZeroDivisionError ∧ mean store_no_count (Some "y") = Ok 0).
Proof.
  apply (proj1 ratio_errors store_no_count (Some "x") (Some "y") KeyError).
  by vm_compute.
Defined.

(** ** Construction and lookup *)

Lemma sorted_tuple_eq_same_pair (a b c d : string) :
  sorted_tuple a b = sorted_tuple c d ↔ same_pair (a, b) (c, d).
Proof.
  split.
  - unfold sorted_tuple, same_pair; simpl.
    destruct (String.ltb b a), (String.ltb d c); intros [= -> ->]; auto.
  - intros [[= -> ->]|[= -> ->]]; [done|apply sorted_tuple_comm].
Qed.

Lemma init_cov_lookup c m v items p x :
  consistent_items items →
  _cov (__init__ c m v items) !! p = Some x ↔
  ∃ q, (q, x) ∈ items ∧ p = sorted_tuple q.1 q.2.
Proof.
  intros Hcons. unfold __init__; simpl.
  rewrite dict_of_items_lookup.
  - rewrite list_elem_of_fmap. split.
    + intros ([q y] & [= -> ->] & Hin). by exists q.
    + intros (q & Hin & ->). by exists (q, x).
  - intros k v1 v2.
    intros ([[a b] y1] & [= -> ->] & Hin1)%list_elem_of_fmap.
    intros ([[a' b'] y2] & [= Hk ->] & Hin2)%list_elem_of_fmap.
    simpl in *. apply (Hcons _ _ _ _ Hin1 Hin2).
    by apply sorted_tuple_eq_same_pair.
Qed.

(** X6: what the constructor is given, [cov] gives back in either order.
    On items that give one value to each unordered pair, [cov(l, r)]
    returns [x] exactly when the items hold [x] under [(l, r)] or under
    [(r, l)]; a pair given in neither order raises [KeyError]. *)
Theorem init_cov_round_trip c m v items (l r : string) :
  consistent_items items →
  (∀ x, cov (__init__ c m v items) (Some l) (Some r) = Ok x ↔
        ((l, r), x) ∈ items ∨ ((r, l), x) ∈ items) ∧
  ((∀ x, (((l, r), x) ∉ items) ∧ (((r, l), x) ∉ items)) →
   cov (__init__ c m v items) (Some l) (Some r) = Raise KeyError).
Proof.
  intros Hcons.
  assert (∀ x, cov (__init__ c m v items) (Some l) (Some r) = Ok x ↔
               ((l, r), x) ∈ items ∨ ((r, l), x) ∈ items) as Hiff.
  { intros x. unfold cov. rewrite subscript_Ok, init_cov_lookup by done.
    split.
    - intros ([a b] & Hin & [[= -> ->]|[= -> ->]]%sorted_tuple_eq_same_pair);
        auto.
    - intros [Hin|Hin]; eexists; (split; [exact Hin|]); simpl;
        [done|apply sorted_tuple_comm]. }
  split; [done|]. intros Hnot.
  destruct (cov (__init__ c m v items) (Some l) (Some r)) as [x|e] eqn:E.
  - destruct (Hnot x) as [? ?]. by destruct (proj1 (Hiff x) eq_refl).
  - pose proof (cov_Raise _ _ _ _ E). congruence.
Qed.

Lemma init_cov_round_trip_witness :
  (∀ x, cov store_xy_full (Some "x") (Some "y") = Ok x ↔
        ((("x", "y"), x) ∈
           [(("x", "x"), Q2Qc 1); (("y", "x"), Q2Qc (1 # 2));
            (("y", "y"), Q2Qc 2)] ∨
         (("y", "x"), x) ∈
           [(("x", "x"), Q2Qc 1); (("y", "x"), Q2Qc (1 # 2));
            (("y", "y"), Q2Qc 2)])) ∧
  ((∀ x, ((("x", "y"), x) ∉
           [(("x", "x"), Q2Qc 1); (("y", "x"), Q2Qc (1 # 2));
            (("y", "y"), Q2Qc 2)]) ∧
         ((("y", "x"), x) ∉
           [(("x", "x"), Q2Qc 1); (("y", "x"), Q2Qc (1 # 2));
            (("y", "y"), Q2Qc 2)])) →
   cov store_xy_full (Some "x") (Some "y") = Raise KeyError).
Proof.
  apply (init_cov_round_trip (Some 10%Z)).
  intros p1 v1 p2 v2 H1 H2 Hsame.
  repeat (apply elem_of_cons in H1 as [[= -> ->]|H1]);
    try (by apply elem_of_nil in H1);
    repeat (apply elem_of_cons in H2 as [[= -> ->]|H2]);
    try (by apply elem_of_nil in H2);
    try reflexivity;
    by destruct Hsame as [[=]|[=]].
Defined.

(** ** Normalisation of a request *)

Lemma sorted_tuple_components (a b : string) :
  (sorted_tuple a b).1 ∈ [a; b] ∧ (sorted_tuple a b).2 ∈ [a; b].
Proof.
  unfold sorted_tuple. destruct (String.ltb b a); simpl;
    split; ((by left) || (right; by left)).
Qed.

Lemma validate_closed hc mc vc cc hc' mc' vc' cc' :
  _validate_aggr_cols hc mc vc cc = (hc', mc', vc', cc') →
  (∀ k, k ∈ vc' → k ∈ mc') ∧
  (∀ p, p ∈ cc' → p.1 ∈ mc' ∧ p.2 ∈ mc') ∧
  (vc' ≠ [] ∨ cc' ≠ [] → hc' = true).
Proof.
  intros Hval.
  destruct (validate_members _ _ _ _ _ _ _ _ Hval)
    as (Hhc & Hmc & Hvc & Hcc & _).
  split; [|split].
  - intros k Hk. apply Hmc. right; left. by apply Hvc.
  - intros p ([a b] & Hq & ->)%Hcc.
    destruct (sorted_tuple_components a b) as [H1 H2].
    split; apply Hmc; right; right; exists (a, b); (split; [done|]); simpl.
    + apply elem_of_cons in H1 as [?|?%list_elem_of_singleton]; auto.
    + apply elem_of_cons in H2 as [?|?%list_elem_of_singleton]; auto.
  - intros [Hne|Hne]; apply Hhc; right.
    + left. intros ->. destruct vc' as [|k ?]; [done|].
      assert (k ∈ []) as ?%elem_of_nil by (apply Hvc; left). done.
    + right. intros ->. destruct cc' as [|p ?]; [done|].
      assert (p ∈ p :: cc') as (q & ?%elem_of_nil & _)%Hcc by left. done.
Qed.



(** X8: normalising a normalised request changes nothing but, possibly,
    the order of its entries. *)
Theorem validate_idempotent hc mc vc cc hc' mc' vc' cc' hc'' mc'' vc'' cc'' :
  _validate_aggr_cols hc mc vc cc = (hc', mc', vc', cc') →
  _validate_aggr_cols hc' mc' vc' cc' = (hc'', mc'', vc'', cc'') →
  hc'' = hc' ∧ mc'' ≡ₚ mc' ∧ vc'' ≡ₚ vc' ∧ cc'' ≡ₚ cc'.
Proof.
  intros Hval Hval'.
  destruct (validate_members _ _ _ _ _ _ _ _ Hval)
    as (Hhc & Hmc & Hvc & Hcc & ? & ? & ?).
  destruct (validate_members _ _ _ _ _ _ _ _ Hval')
    as (Hhc' & Hmc' & Hvc' & Hcc' & ? & ? & ?).
  pose proof (validate_cov_canonical _ _ _ _ _ _ _ _ Hval) as Hcan.
  assert (∀ k, k ∈ vc' → k ∈ mc') as Hvm.
  { intros k Hk. apply Hmc. right; left. by apply Hvc. }
  assert (∀ p, p ∈ cc' → p.1 ∈ mc' ∧ p.2 ∈ mc') as Hcm.
  { intros p ([a b] & Hq & ->)%Hcc.
    split; apply Hmc; right; right; exists (a, b); (split; [done|]); simpl;
      unfold sorted_tuple; destruct (String.ltb b a); auto. }
  split; [|split; [|split]].
  - destruct (decide (hc' = true)) as [Ht|Hf].
    + rewrite Ht. apply Hhc'. by left.
    + assert (hc'' ≠ true) as Hf'.
      { intros [?|[Hne|Hne]]%Hhc'; [done| |]; apply Hf, Hhc; right.
        * left. intros ->. apply Hne. destruct vc' as [|k ?]; [done|].
          assert (k ∈ []) as ?%elem_of_nil by (apply Hvc; left). done.
        * right. intros ->. apply Hne. destruct cc' as [|p ?]; [done|].
          assert (p ∈ p :: cc') as (q & ?%elem_of_nil & _)%Hcc by left.
          done. }
      by destruct hc'', hc'.
  - apply NoDup_Permutation; [done..|]. intros k. rewrite Hmc'. split.
    + intros [?|[?%Hvm|(p & [? ?]%Hcm & [-> | ->])]]; done.
    + by left.
  - apply NoDup_Permutation; [done..|]. intros k. by rewrite Hvc'.
  - apply NoDup_Permutation; [done..|]. intros p. rewrite Hcc'. split.
    + intros (q & Hq & ->). by rewrite (proj1 (canonical_fixed q) (Hcan q Hq)).
    + intros Hp. exists p. split; [done|].
      by rewrite (proj1 (canonical_fixed p) (Hcan p Hp)).
Qed.

Lemma validate_idempotent_witness :
  true = true ∧ ["y"; "x"] ≡ₚ ["y"; "x"] ∧ ["y"] ≡ₚ ["y"] ∧
  [("x", "y")] ≡ₚ [("x", "y")].
Proof.
  apply (validate_idempotent false ["x"] ["y"] [("y", "x")]
           true ["y"; "x"] ["y"] [("x", "y")]); by vm_compute.
Defined.

(** ** Further properties of [filter] *)

(** X9: whatever the source store, a store returned by [filter] satisfies
    the invariants: its covariance keys are canonical, every variable with a
    variance or in a covariance pair has a mean, and it has a count as soon
    as it has a variance or a covariance. *)
Theorem filter_result_well_formed s hc mc vc cc r :
  filter s hc mc vc cc = Ok r →
  well_formed r ∧ (_var r ≠ ∅ ∨ _cov r ≠ ∅ → is_Some (_count r)).
Proof.
  intros Hr.
  destruct (_validate_aggr_cols hc mc vc cc) as [[[hc' mc'] vc'] cc'] eqn:Hval.
  destruct (filter_inv _ _ _ _ _ _ _ _ _ Hval _ Hr)
    as (Hc & (Hm & Hv & Hcv) & (Pc & Pm & Pv & Pcv)).
  destruct (validate_closed _ _ _ _ _ _ _ _ Hval) as (Hvm & Hcm & Hcount).
  pose proof (validate_cov_canonical _ _ _ _ _ _ _ _ Hval) as Hcan.
  assert (∀ k, is_Some (_var r !! k) → k ∈ vc') as Hvin.
  { intros k. rewrite Pv. case_decide; [done|]. by intros [? ?]. }
  assert (∀ p, is_Some (_cov r !! p) → p ∈ cc') as Hcin.
  { intros p. rewrite Pcv. case_decide; [done|]. by intros [? ?]. }
  assert (∀ k, k ∈ mc' → is_Some (_mean r !! k)) as Hmin.
  { intros k Hk. rewrite Pm, decide_True by done. auto. }
  split; [split|].
  - intros k ?%Hvin. auto.
  - intros p Hp%Hcin. destruct (Hcm p Hp). auto.
  - intros Hne. assert (hc' = true) as Ht.
    { apply Hcount.
      destruct Hne as [(k & x & Hk)%map_choose|(p & x & Hp)%map_choose].
      - left. intros Hnil.
        assert (k ∈ vc') as Hin by (apply Hvin; by eexists).
        rewrite Hnil in Hin. by apply elem_of_nil in Hin.
      - right. intros Hnil.
        assert (p ∈ cc') as Hin by (apply Hcin; by eexists).
        rewrite Hnil in Hin. by apply elem_of_nil in Hin. }
    rewrite Pc, Ht. by apply Hc.
Qed.

Lemma filter_result_well_formed_witness :
  well_formed store_xy_filtered ∧
  (_var store_xy_filtered ≠ ∅ ∨ _cov store_xy_filtered ≠ ∅ →
   is_Some (_count store_xy_filtered)).
Proof.
  apply (filter_result_well_formed store_xy false ["x"] ["y"] [("y", "x")]).
  by vm_compute.
Defined.

(** X10: filters compose: after a successful [filter], filtering the result
    with a request whose normal form is contained in that of the first
    request succeeds and gives what filtering the source with it gives. *)
Theorem filter_compose s hc1 mc1 vc1 cc1 hc2 mc2 vc2 cc2
    h1 m1 v1 c1 h2 m2 v2 c2 r1 :
  _validate_aggr_cols hc1 mc1 vc1 cc1 = (h1, m1, v1, c1) →
  _validate_aggr_cols hc2 mc2 vc2 cc2 = (h2, m2, v2, c2) →
  (h2 = true → h1 = true) → m2 ⊆ m1 → v2 ⊆ v1 → c2 ⊆ c1 →
  filter s hc1 mc1 vc1 cc1 = Ok r1 →
  ∃ r2, filter r1 hc2 mc2 vc2 cc2 = Ok r2 ∧ filter s hc2 mc2 vc2 cc2 = Ok r2.
Proof.
  intros Hval1 Hval2 Hh Hm Hv Hc Hr1.
  destruct (filter_inv _ _ _ _ _ _ _ _ _ Hval1 _ Hr1)
    as (Hc1 & (Hm1 & Hv1 & Hcv1) & (Pc1 & Pm1 & Pv1 & Pcv1)).
  destruct (filter_total s _ _ _ _ _ _ _ _ Hval2) as [r2 Hr2]; [by auto|..].
  { split; [|split]; intros k Hk; auto. }
  destruct (filter_total r1 _ _ _ _ _ _ _ _ Hval2) as [r2' Hr2'].
  { intros Ht. rewrite Pc1, (Hh Ht). auto. }
  { split; [|split]; intros k Hk.
    - rewrite Pm1, decide_True by auto. auto.
    - rewrite Pv1, decide_True by auto. auto.
    - rewrite Pcv1, decide_True by auto. auto. }
  exists r2. split; [|done]. rewrite Hr2'. f_equal.
  destruct (filter_inv _ _ _ _ _ _ _ _ _ Hval2 _ Hr2) as (_ & _ & P2).
  destruct (filter_inv _ _ _ _ _ _ _ _ _ Hval2 _ Hr2')
    as (_ & _ & (Pc' & Pm' & Pv' & Pcv')).
  apply (projects_unique s h2 m2 v2 c2); [|done].
  split; [|split; [|split]].
  - rewrite Pc', Pc1. destruct h2; [|done]. by rewrite Hh.
  - intros k. rewrite Pm', Pm1. case_decide; [|done].
    by rewrite decide_True by auto.
  - intros k. rewrite Pv', Pv1. case_decide; [|done].
    by rewrite decide_True by auto.
  - intros k. rewrite Pcv', Pcv1. case_decide; [|done].
    by rewrite decide_True by auto.
Qed.

Lemma filter_compose_witness :
  ∃ r2, filter store_xy_filtered false ["x"] [] [] = Ok r2 ∧
        filter store_xy false ["x"] [] [] = Ok r2.
Proof.
  apply (filter_compose store_xy false ["x"] ["y"] [("y", "x")]
           false ["x"] [] []
           true ["y"; "x"] ["y"] [("x", "y")] false ["x"] [] []);
    try (by vm_compute).
  - intros x ?%list_elem_of_singleton. subst. right; left.
  - by intros x ?%elem_of_nil.
  - by intros x ?%elem_of_nil.
Defined.

Lemma tuple_of_set_ext `{Countable K} (l1 l2 : list K) :
  (∀ x, x ∈ l1 ↔ x ∈ l2) → tuple_of_set l1 = tuple_of_set l2.
Proof.
  intros Hl. unfold tuple_of_set. f_equal. apply set_eq. intros x.
  by rewrite !elem_of_list_to_set.
Qed.

Lemma nonempty_ext {A B} (l1 : list A) (l2 : list B) :
  (l1 = [] ↔ l2 = []) →
  bool_decide (0 < length l1)%nat = bool_decide (0 < length l2)%nat.
Proof.
  intros Hl. destruct l1, l2; simpl; try done.
  - by pose proof (proj1 Hl eq_refl).
  - by pose proof (proj2 Hl eq_refl).
Qed.

(** X11: [filter] reads its request as sets: the order and the repetitions
    in the three lists, and the order inside each covariance pair, do not
    change what it returns or raises. *)
Theorem filter_request_as_sets s hc mc vc cc mc2 vc2 cc2 :
  (∀ k, k ∈ mc ↔ k ∈ mc2) →
  (∀ k, k ∈ vc ↔ k ∈ vc2) →
  (∀ p, (∃ q, q ∈ cc ∧ same_pair p q) ↔ (∃ q, q ∈ cc2 ∧ same_pair p q)) →
  filter s hc mc vc cc = filter s hc mc2 vc2 cc2.
Proof.
  intros Hm Hv Hc.
  assert (∀ l l' : list (string * string),
            (∀ p, (∃ q, q ∈ l ∧ same_pair p q) →
                  (∃ q, q ∈ l' ∧ same_pair p q)) →
            (∀ k, k ∈ chain l → k ∈ chain l') ∧
            (∀ p, p ∈ (λ p, sorted_tuple p.1 p.2) <$> l →
                  p ∈ (λ p, sorted_tuple p.1 p.2) <$> l') ∧
            (l' = [] → l = [])) as Hpairs.
  { intros l l' Hl. split; [|split].
    - intros k (q & Hk & Hq)%list_elem_of_bind.
      destruct (Hl q) as ([a b] & Hin & Hsame); [exists q; split; [done|by left]|].
      apply list_elem_of_bind. exists (a, b). split; [|done].
      destruct Hsame as [->| ->]; simpl in *; [done|].
      apply elem_of_cons in Hk as [->|Hk%list_elem_of_singleton];
        [right; left|subst; left].
    - intros p (q & -> & Hq)%list_elem_of_fmap.
      destruct (Hl q) as (q' & Hin & Hsame); [exists q; split; [done|by left]|].
      apply list_elem_of_fmap. exists q'. split; [|done].
      destruct q, q'. by apply sorted_tuple_eq_same_pair.
    - intros ->. destruct l as [|q l]; [done|].
      destruct (Hl q) as (q' & ?%elem_of_nil & _); [|done].
      exists q. split; [left|by left]. }
  destruct (Hpairs cc cc2) as (Hch1 & Hst1 & Hnil1); [by intros p ?%Hc|].
  destruct (Hpairs cc2 cc) as (Hch2 & Hst2 & Hnil2); [by intros p ?%Hc|].
  assert (_validate_aggr_cols hc mc vc cc = _validate_aggr_cols hc mc2 vc2 cc2)
    as Hval.
  { unfold _validate_aggr_cols.
    rewrite (nonempty_ext vc vc2), (nonempty_ext cc cc2).
    - rewrite (tuple_of_set_ext (mc ++ vc ++ chain cc)
                 (mc2 ++ vc2 ++ chain cc2)).
      + rewrite (tuple_of_set_ext vc vc2) by done.
        by rewrite (tuple_of_set_ext _ ((λ p, sorted_tuple p.1 p.2) <$> cc2))
          by (split; auto).
      + intros k. rewrite !elem_of_app, Hm, Hv. split.
        * intros [?|[?|?]]; auto.
        * intros [?|[?|?]]; auto.
    - split; auto.
    - split; intros ->.
      + destruct vc2 as [|k ?]; [done|].
        assert (k ∈ []) as ?%elem_of_nil by (apply Hv; left). done.
      + destruct vc as [|k ?]; [done|].
        assert (k ∈ []) as ?%elem_of_nil by (apply Hv; left). done. }
  unfold filter. by rewrite Hval.
Qed.

Lemma filter_request_as_sets_witness :
  filter store_xy false ["x"] ["y"] [("y", "x")]
    = filter store_xy false ["x"; "x"] ["y"; "y"] [("x", "y"); ("y", "x")].
Proof.
  apply filter_request_as_sets.
  - intros k. rewrite !elem_of_cons. tauto.
  - intros k. rewrite !elem_of_cons. tauto.
  - intros p. split.
    + intros (q & ->%list_elem_of_singleton & Hp).
      exists ("y", "x"). split; [right; left|done].
    + intros (q & Hq & Hp). exists ("y", "x"). split; [left|].
      apply elem_of_cons in Hq as [-> | ->%list_elem_of_singleton]; [|done].
      destruct Hp as [->| ->]; [by right|by left].
Defined.

(** ** Further properties of the merge *)

Lemma comprehend_Ok_mono {K V} (f g : K → result V) keys kvs :
  (∀ k v, k ∈ keys → f k = Ok v → g k = Ok v) →
  comprehend f keys = Ok kvs → comprehend g keys = Ok kvs.
Proof.
  intros Hfg E. rewrite <-E. symmetry. apply comprehend_ext.
  intros k Hk. destruct (comprehend_Ok_all _ _ _ _ E Hk) as [v Hv].
  by rewrite Hv, (Hfg k v).
Qed.

(** What a merge that returned holds, key by key. *)
Lemma add_inv a b n1 n2 r :
  _count a = Some n1 → _count b = Some n2 →
  __add__ a b = Ok r →
  _count r = Some (n1 + n2)%Z ∧
  (∀ k x, _mean r !! k = Some x ↔
          is_Some (_mean a !! k) ∧ _add_mean a b k = Ok x) ∧
  (∀ k x, _var r !! k = Some x ↔
          is_Some (_var a !! k) ∧ _add_var a b k = Ok x) ∧
  ((∀ p, is_Some (_cov a !! p) → canonical p) →
   ∀ p x, _cov r !! p = Some x ↔
          is_Some (_cov a !! p) ∧ _add_cov a b p = Ok x) ∧
  (∀ k, is_Some (_mean a !! k) → ∃ x, _add_mean a b k = Ok x) ∧
  (∀ k, is_Some (_var a !! k) → ∃ x, _add_var a b k = Ok x) ∧
  (∀ p, is_Some (_cov a !! p) → ∃ x, _add_cov a b p = Ok x).
Proof.
  intros H1 H2. rewrite (add_unfold a b n1 n2) by done.
  intros (m & Hm & (v & Hv & (cv & Hcv & [= <-])%bind_Ok)%bind_Ok)%bind_Ok.
  split; [done|]. split; [|split; [|split; [|split; [|split]]]].
  - intros k x. simpl. by rewrite (dict_comp_lookup _ _ _ _ _ Hm), elem_of_keys.
  - intros k x. simpl. by rewrite (dict_comp_lookup _ _ _ _ _ Hv), elem_of_keys.
  - intros Hcan p x. rewrite init_canonical_items.
    + rewrite <-elem_of_keys. apply dict_comp_lookup.
      unfold dict_comp. by rewrite Hcv.
    + rewrite (comprehend_fst _ _ _ Hcv). intros q Hq. by apply Hcan, elem_of_keys.
  - intros k Hk%elem_of_keys. by apply (dict_comp_Ok_all _ _ _ _ Hm).
  - intros k Hk%elem_of_keys. by apply (dict_comp_Ok_all _ _ _ _ Hv).
  - intros p Hp%elem_of_keys. by apply (comprehend_Ok_all _ _ _ _ Hcv).
Qed.

Lemma add_mean_Ok_inv a b n1 n2 k x :
  _count a = Some n1 → _count b = Some n2 →
  _add_mean a b k = Ok x →
  ∃ m1 m2, _mean a !! k = Some m1 ∧ _mean b !! k = Some m2 ∧
           (n1 + n2 ≠ 0)%Z ∧ x = pooled_mean n1 n2 m1 m2.
Proof.
  intros H1 H2 H. unfold _add_mean, count in H. rewrite H1, H2 in H.
  simpl in H. unbind H.
  apply truediv_Ok_inv in H as [HN ->].
  repeat match goal with
  | Hm : subscript _ _ = Ok _ |- _ => apply subscript_Ok in Hm
  end.
  eexists _, _. split; [done|]. split; [done|]. split.
  - intros HN0. apply HN. by rewrite HN0, Z2Qc_inj_0.
  - unfold pooled_mean. by rewrite Z2Qc_inj_add.
Qed.

Lemma add_var_Ok_inv a b n1 n2 k x :
  _count a = Some n1 → _count b = Some n2 →
  _add_var a b k = Ok x →
  ∃ m1 m2 v1 v2,
    _mean a !! k = Some m1 ∧ _mean b !! k = Some m2 ∧
    _var a !! k = Some v1 ∧ _var b !! k = Some v2 ∧
    (n1 + n2 ≠ 0)%Z ∧ (n1 + n2 ≠ 1)%Z ∧
    x = spec_pooled_variance n1 n2 m1 m2 v1 v2.
Proof.
  intros H1 H2 H. unfold _add_var, count in H. rewrite H1, H2 in H.
  simpl in H. unbind H.
  apply truediv_Ok_inv in H as [HN1 ->].
  repeat match goal with
  | Hm : subscript _ _ = Ok _ |- _ => apply subscript_Ok in Hm
  | Hd : truediv _ _ = Ok _ |- _ => apply truediv_Ok_inv in Hd as [HN ->]
  end.
  eexists _, _, _, _. do 4 (split; [done|]).
  assert ((n1 + n2)%Z ≠ 0%Z) as HZ.
  { intros HN0. apply HN. by rewrite HN0, Z2Qc_inj_0. }
  assert ((n1 + n2)%Z ≠ 1%Z) as HZ1.
  { intros HN0. apply HN1. rewrite HN0. exact Z2Qc_inj_0. }
  do 2 (split; [done|]).
  unfold spec_pooled_variance. cbn [Qcpower].
  rewrite !Qc_of_Z_pred, Z2Qc_inj_add in *. by field.
Qed.

Lemma add_cov_Ok_inv a b n1 n2 (p : string * string) x :
  _count a = Some n1 → _count b = Some n2 →
  _add_cov a b p = Ok x →
  ∃ ma1 ma2 mb1 mb2 c1 c2,
    _mean a !! p.1 = Some ma1 ∧ _mean b !! p.1 = Some ma2 ∧
    _mean a !! p.2 = Some mb1 ∧ _mean b !! p.2 = Some mb2 ∧
    _cov a !! sorted_tuple p.1 p.2 = Some c1 ∧
    _cov b !! sorted_tuple p.1 p.2 = Some c2 ∧
    (n1 + n2 ≠ 0)%Z ∧ (n1 + n2 ≠ 1)%Z ∧
    x = pooled_covariance n1 n2 ma1 ma2 mb1 mb2 c1 c2.
Proof.
  intros H1 H2 H. unfold _add_cov, count, cov in H. rewrite H1, H2 in H.
  simpl in H. unbind H.
  apply truediv_Ok_inv in H as [HN1 ->].
  repeat match goal with
  | Hm : subscript _ _ = Ok _ |- _ => apply subscript_Ok in Hm
  | Hd : truediv _ _ = Ok _ |- _ => apply truediv_Ok_inv in Hd as [HN ->]
  end.
  eexists _, _, _, _, _, _. do 6 (split; [done|]).
  assert ((n1 + n2)%Z ≠ 0%Z) as HZ.
  { intros HN0. apply HN. by rewrite HN0, Z2Qc_inj_0. }
  assert ((n1 + n2)%Z ≠ 1%Z) as HZ1.
  { intros HN0. apply HN1. rewrite HN0. exact Z2Qc_inj_0. }
  do 2 (split; [done|]).
  unfold pooled_covariance.
  rewrite !Qc_of_Z_pred, Z2Qc_inj_add in *. by field.
Qed.

Lemma add_mean_lookup a b n1 n2 r k :
  _count a = Some n1 → _count b = Some n2 → __add__ a b = Ok r →
  (_mean a !! k = None → _mean r !! k = None) ∧
  (∀ m1 m2, _mean a !! k = Some m1 → _mean b !! k = Some m2 →
            _mean r !! k = Some (pooled_mean n1 n2 m1 m2)).
Proof.
  intros H1 H2 Hr.
  destruct (add_inv a b n1 n2 r H1 H2 Hr) as (_ & Hm & _ & _ & Hm' & _).
  split.
  - intros Hnone. apply eq_None_not_Some. intros [x [[? ?] _]%Hm]. congruence.
  - intros m1 m2 Ha Hb. destruct (Hm' k) as [x Hx]; [by eexists|].
    apply Hm. split; [by eexists|]. rewrite Hx. f_equal.
    destruct (add_mean_Ok_inv a b n1 n2 k x H1 H2 Hx)
      as (? & ? & ? & ? & _ & ->). congruence.
Qed.

Lemma add_var_lookup a b n1 n2 r k :
  _count a = Some n1 → _count b = Some n2 → __add__ a b = Ok r →
  (_var a !! k = None → _var r !! k = None) ∧
  (∀ m1 m2 v1 v2,
     _mean a !! k = Some m1 → _mean b !! k = Some m2 →
     _var a !! k = Some v1 → _var b !! k = Some v2 →
     _var r !! k = Some (spec_pooled_variance n1 n2 m1 m2 v1 v2)).
Proof.
  intros H1 H2 Hr.
  destruct (add_inv a b n1 n2 r H1 H2 Hr) as (_ & _ & Hv & _ & _ & Hv' & _).
  split.
  - intros Hnone. apply eq_None_not_Some. intros [x [[? ?] _]%Hv]. congruence.
  - intros m1 m2 v1 v2 Ha Hb Hva Hvb. destruct (Hv' k) as [x Hx]; [by eexists|].
    apply Hv. split; [by eexists|]. rewrite Hx. f_equal.
    destruct (add_var_Ok_inv a b n1 n2 k x H1 H2 Hx)
      as (? & ? & ? & ? & ? & ? & ? & ? & _ & _ & ->). congruence.
Qed.

Lemma add_cov_lookup a b n1 n2 r (p : string * string) :
  _count a = Some n1 → _count b = Some n2 → __add__ a b = Ok r →
  (∀ q, is_Some (_cov a !! q) → canonical q) →
  (_cov a !! p = None → _cov r !! p = None) ∧
  (∀ ma1 ma2 mb1 mb2 c1 c2,
     _mean a !! p.1 = Some ma1 → _mean b !! p.1 = Some ma2 →
     _mean a !! p.2 = Some mb1 → _mean b !! p.2 = Some mb2 →
     _cov a !! p = Some c1 → _cov b !! p = Some c2 →
     _cov r !! p = Some (pooled_covariance n1 n2 ma1 ma2 mb1 mb2 c1 c2)).
Proof.
  intros H1 H2 Hr Hcan.
  destruct (add_inv a b n1 n2 r H1 H2 Hr) as (_ & _ & _ & Hc & _ & _ & Hc').
  specialize (Hc Hcan). split.
  - intros Hnone. apply eq_None_not_Some. intros [x [[? ?] _]%Hc]. congruence.
  - intros ma1 ma2 mb1 mb2 c1 c2 Ha1 Ha2 Hb1 Hb2 Hca Hcb.
    destruct (Hc' p) as [x Hx]; [by eexists|].
    apply Hc. split; [by eexists|]. rewrite Hx. f_equal.
    destruct (add_cov_Ok_inv a b n1 n2 p x H1 H2 Hx)
      as (? & ? & ? & ? & ? & ? & ? & ? & ? & ? & Hs1 & Hs2 & _ & _ & ->).
    rewrite (proj1 (canonical_fixed p)) in Hs1, Hs2
      by (apply Hcan; by eexists).
    congruence.
Qed.

(** The merge returns as soon as both counts are defined with a sum other
    than 0 and 1, the right operand has the keys of the left one, and the
    left one satisfies the invariants. *)
Lemma add_total_gen a b n1 n2 :
  _count a = Some n1 → _count b = Some n2 →
  (n1 + n2 ≠ 0)%Z → (n1 + n2 ≠ 1)%Z →
  (∀ k, is_Some (_mean a !! k) → is_Some (_mean b !! k)) →
  (∀ k, is_Some (_var a !! k) → is_Some (_var b !! k)) →
  (∀ p, is_Some (_cov a !! p) → is_Some (_cov b !! p)) →
  well_formed a →
  ∃ r, __add__ a b = Ok r.
Proof.
  intros H1 H2 HN0 HN1 Hm Hv Hc (Wv & Wc).
  rewrite (add_unfold a b n1 n2) by done.
  assert (Qc_of_Z (n1 + n2) ≠ 0) as HN by by apply Qc_of_Z_neq_0.
  assert (Qc_of_Z (n1 + n2 - 1) ≠ 0) as HN' by (apply Qc_of_Z_neq_0; lia).
  destruct (dict_comp_total (_add_mean a b) (keys (_mean a))) as [m ->].
  { intros k [m1 Hm1]%elem_of_keys.
    destruct (Hm k) as [m2 Hm2]; [by eexists|].
    rewrite (add_mean_eval a b n1 n2 H1 H2 k m1 m2), truediv_ok by done.
    by eexists. }
  destruct (dict_comp_total (_add_var a b) (keys (_var a))) as [v ->].
  { intros k [v1 Hv1]%elem_of_keys.
    destruct (Hv k) as [v2 Hv2]; [by eexists|].
    destruct (Wv k) as [m1 Hm1]; [by eexists|].
    destruct (Hm k) as [m2 Hm2]; [by eexists|].
    rewrite (add_var_eval a b n1 n2 H1 H2 k m1 m2 v1 v2) by done.
    rewrite truediv_ok by done; simpl. rewrite truediv_ok by done.
    by eexists. }
  destruct (comprehend_total (_add_cov a b) (keys (_cov a))) as [cv ->];
    [|by eexists].
  intros p [c1 Hc1]%elem_of_keys.
  destruct (Wc p) as (Hcan & [m10 Hm10] & [m11 Hm11]); [by eexists|].
  destruct (Hc p) as [c2 Hc2]; [by eexists|].
  destruct (Hm p.1) as [m20 Hm20]; [by eexists|].
  destruct (Hm p.2) as [m21 Hm21]; [by eexists|].
  rewrite (add_cov_eval a b n1 n2 H1 H2 p m10 m20 m11 m21 c1 c2)
    by (done || by rewrite (proj1 (canonical_fixed p) Hcan)).
  rewrite truediv_ok by done; simpl. rewrite truediv_ok by done.
  by eexists.
Qed.

(** The keys of a merge that returned are those of the left operand. *)
Lemma add_same_keys a b n1 n2 r :
  _count a = Some n1 → _count b = Some n2 → __add__ a b = Ok r →
  (∀ k, is_Some (_mean r !! k) ↔ is_Some (_mean a !! k)) ∧
  (∀ k, is_Some (_var r !! k) ↔ is_Some (_var a !! k)) ∧
  ((∀ q, is_Some (_cov a !! q) → canonical q) →
   ∀ p, is_Some (_cov r !! p) ↔ is_Some (_cov a !! p)).
Proof.
  intros H1 H2 Hr.
  destruct (add_inv a b n1 n2 r H1 H2 Hr)
    as (_ & Hm & Hv & Hc & Hm' & Hv' & Hc').
  split; [|split].
  - intros k. split.
    + by intros [x [? _]%Hm].
    + intros Hk. destruct (Hm' k Hk) as [x Hx]. exists x. by apply Hm.
  - intros k. split.
    + by intros [x [? _]%Hv].
    + intros Hk. destruct (Hv' k Hk) as [x Hx]. exists x. by apply Hv.
  - intros Hcan p. specialize (Hc Hcan). split.
    + by intros [x [? _]%Hc].
    + intros Hp. destruct (Hc' p Hp) as [x Hx]. exists x. by apply Hc.
Qed.

(** X12: a merge that returns keeps the shape of its left operand: the
    result has exactly the mean, variance and covariance keys of [self],
    and satisfies the invariants when [self] does. *)
Theorem add_keeps_shape (a b r : t) :
  well_formed a → __add__ a b = Ok r →
  dom (_mean r) = dom (_mean a) ∧ dom (_var r) = dom (_var a) ∧
  dom (_cov r) = dom (_cov a) ∧ well_formed r.
Proof.
  intros Hwf Hr.
  assert (∀ q, is_Some (_cov a !! q) → canonical q) as Hcan.
  { intros q Hq. by destruct (proj2 Hwf q Hq). }
  assert ((∀ k, is_Some (_mean r !! k) ↔ is_Some (_mean a !! k)) ∧
          (∀ k, is_Some (_var r !! k) ↔ is_Some (_var a !! k)) ∧
          (∀ p, is_Some (_cov r !! p) ↔ is_Some (_cov a !! p)))
    as (Hm & Hv & Hc).
  { destruct (_count a) as [n1|] eqn:H1.
    - destruct (_count b) as [n2|] eqn:H2.
      + destruct (add_same_keys a b n1 n2 r H1 H2 Hr) as (? & ? & Hc).
        auto.
      + unfold __add__, count in Hr. by rewrite H1, H2 in Hr.
    - rewrite add_no_count_l in Hr by done.
      destruct (keys (_mean a)) eqn:Em; [|done].
      destruct (keys (_var a)) eqn:Ev; [|done].
      destruct (keys (_cov a)) eqn:Ec; [|done].
      apply keys_nil in Em, Ev, Ec. injection Hr as <-. simpl.
      rewrite Em, Ev, Ec. unfold dict_of_items; simpl. done. }
  split; [|split; [|split]].
  - apply set_eq. intros k. by rewrite !elem_of_dom.
  - apply set_eq. intros k. by rewrite !elem_of_dom.
  - apply set_eq. intros k. by rewrite !elem_of_dom.
  - destruct Hwf as [Wv Wc]. split.
    + intros k ?%Hv%Wv. by apply Hm.
    + intros p (? & ? & ?)%Hc%Wc. split; [done|]. split; by apply Hm.
Qed.

Lemma add_keeps_shape_witness :
  dom (_mean store_AB) = dom (_mean store_A) ∧
  dom (_var store_AB) = dom (_var store_A) ∧
  dom (_cov store_AB) = dom (_cov store_A) ∧ well_formed store_AB.
Proof.
  exact (add_keeps_shape store_A store_B store_AB
           well_formed_store_A add_scenario).
Defined.

Lemma subscript_mono `{Countable K} {V} (d d' : gmap K V) k x :
  d ⊆ d' → subscript d k = Ok x → subscript d' k = Ok x.
Proof. intros Hd ?%subscript_Ok. by apply subscript_Ok, (lookup_weaken d). Qed.

Section merge_right_operand.
Context (a b b' : t).
Hypothesis Hcnt : _count b' = _count b.
Hypothesis Hm : _mean b ⊆ _mean b'.
Hypothesis Hv : _var b ⊆ _var b'.
Hypothesis Hc : _cov b ⊆ _cov b'.

Lemma add_mean_mono k x : _add_mean a b k = Ok x → _add_mean a b' k = Ok x.
Proof.
  intros H.
  destruct (_count a) as [n1|] eqn:H1;
    [|unfold _add_mean, count in H; by rewrite H1 in H].
  destruct (_count b) as [n2|] eqn:H2;
    [|unfold _add_mean, count, mean, subscript in H; rewrite H1, H2 in H;
      by destruct (_mean a !! k)].
  destruct (add_mean_Ok_inv a b n1 n2 k x H1 H2 H)
    as (m1 & m2 & Ha & Hb & _).
  rewrite (add_mean_eval a b n1 n2 H1 H2 k m1 m2) in H by done.
  rewrite (add_mean_eval a b' n1 n2 H1 Hcnt k m1 m2); [done|done|].
  by apply (lookup_weaken (_mean b)).
Qed.

Lemma add_var_mono k x : _add_var a b k = Ok x → _add_var a b' k = Ok x.
Proof.
  intros H.
  destruct (_count a) as [n1|] eqn:H1;
    [|unfold _add_var, count in H; by rewrite H1 in H].
  destruct (_count b) as [n2|] eqn:H2;
    [|unfold _add_var, count in H; by rewrite H1, H2 in H].
  destruct (add_var_Ok_inv a b n1 n2 k x H1 H2 H)
    as (m1 & m2 & v1 & v2 & Ha & Hb & Hva & Hvb & _).
  rewrite (add_var_eval a b n1 n2 H1 H2 k m1 m2 v1 v2) in H by done.
  rewrite (add_var_eval a b' n1 n2 H1 Hcnt k m1 m2 v1 v2);
    [done|done| |done|].
  - by apply (lookup_weaken (_mean b)).
  - by apply (lookup_weaken (_var b)).
Qed.

Lemma add_cov_mono p x : _add_cov a b p = Ok x → _add_cov a b' p = Ok x.
Proof.
  intros H.
  destruct (_count a) as [n1|] eqn:H1;
    [|unfold _add_cov, count in H; by rewrite H1 in H].
  destruct (_count b) as [n2|] eqn:H2;
    [|unfold _add_cov, count in H; by rewrite H1, H2 in H].
  destruct (add_cov_Ok_inv a b n1 n2 p x H1 H2 H)
    as (ma1 & ma2 & mb1 & mb2 & c1 & c2 & Ha1 & Ha2 & Hb1 & Hb2 & Hc1 & Hc2
        & _).
  rewrite (add_cov_eval a b n1 n2 H1 H2 p ma1 ma2 mb1 mb2 c1 c2) in H by done.
  rewrite (add_cov_eval a b' n1 n2 H1 Hcnt p ma1 ma2 mb1 mb2 c1 c2);
    [done|done| |done| |done|].
  - by apply (lookup_weaken (_mean b)).
  - by apply (lookup_weaken (_mean b)).
  - by apply (lookup_weaken (_cov b)).
Qed.

End merge_right_operand.

(** X13: the merge reads from its right operand only what the keys of the
    left one ask for: entries that [other] holds beyond those do not change
    the result. *)
Theorem add_ignores_extra (a b b' r : t) :
  _count b' = _count b →
  _mean b ⊆ _mean b' → _var b ⊆ _var b' → _cov b ⊆ _cov b' →
  __add__ a b = Ok r → __add__ a b' = Ok r.
Proof.
  intros Hcnt Hm Hv Hc.
  assert (count b' = count b) as Hcb by (unfold count; by rewrite Hcnt).
  unfold __add__, dict_comp. rewrite Hcb.
  destruct (match _count a with
            | Some _ => _
            | None => _
            end) as [c|]; [|done]. simpl.
  destruct (comprehend (_add_mean a b) (keys (_mean a))) as [kvm|] eqn:Em;
    [|done].
  rewrite (comprehend_Ok_mono (_add_mean a b) (_add_mean a b') _ kvm);
    [|intros k x _; by apply add_mean_mono|done].
  simpl.
  destruct (comprehend (_add_var a b) (keys (_var a))) as [kvv|] eqn:Ev;
    [|done].
  rewrite (comprehend_Ok_mono (_add_var a b) (_add_var a b') _ kvv);
    [|intros k x _; by apply add_var_mono|done].
  simpl.
  destruct (comprehend (_add_cov a b) (keys (_cov a))) as [kvc|] eqn:Ec;
    [|done].
  by rewrite (comprehend_Ok_mono (_add_cov a b) (_add_cov a b') _ kvc);
    [|intros k x _; by apply add_cov_mono|done].
Qed.

Lemma add_ignores_extra_witness :
  __add__ store_A store_B_wide = Ok store_AB.
Proof.
  apply (add_ignores_extra store_A store_B store_B_wide).
  - reflexivity.
  - apply map_subseteq_spec. intros k x Hk.
    unfold store_B in Hk; simpl in Hk.
    apply lookup_singleton_Some in Hk as [<- <-]. by vm_compute.
  - apply map_subseteq_spec. intros k x Hk.
    unfold store_B in Hk; simpl in Hk.
    apply lookup_singleton_Some in Hk as [<- <-]. by vm_compute.
  - apply map_empty_subseteq.
  - exact add_scenario.
Defined.

(** *** Errors of the merge *)

Section merge_errors.
Context (a b : t) (n1 n2 : Z).
Hypothesis H1 : _count a = Some n1.
Hypothesis H2 : _count b = Some n2.
Hypothesis HN0 : (n1 + n2 ≠ 0)%Z.
Hypothesis HN1 : (n1 + n2 ≠ 1)%Z.

Lemma add_mean_Raise_inv k e :
  _add_mean a b k = Raise e →
  e = KeyError ∧ (_mean a !! k = None ∨ _mean b !! k = None).
Proof.
  destruct (_mean a !! k) as [m1|] eqn:Ea;
    destruct (_mean b !! k) as [m2|] eqn:Eb.
  - rewrite (add_mean_eval a b n1 n2 H1 H2 k m1 m2) by done.
    by rewrite truediv_ok by by apply Qc_of_Z_neq_0.
  - unfold _add_mean, count, mean, subscript. rewrite H1, H2, Ea, Eb.
    intros [= <-]. auto.
  - unfold _add_mean, count, mean, subscript. rewrite H1, Ea.
    intros [= <-]. auto.
  - unfold _add_mean, count, mean, subscript. rewrite H1, Ea.
    intros [= <-]. auto.
Qed.

Lemma add_var_Raise_inv k e :
  _add_var a b k = Raise e →
  e = KeyError ∧
  (_mean a !! k = None ∨ _mean b !! k = None ∨
   _var a !! k = None ∨ _var b !! k = None).
Proof.
  destruct (_mean a !! k) as [m1|] eqn:Ea;
    destruct (_mean b !! k) as [m2|] eqn:Eb;
    destruct (_var a !! k) as [v1|] eqn:Eva;
    destruct (_var b !! k) as [v2|] eqn:Evb;
    try (unfold _add_var, count, mean, var, subscript;
         rewrite H1, H2, ?Ea, ?Eb, ?Eva, ?Evb; intros [= <-]; tauto).
  rewrite (spec_pooled_variance_eval a b k n1 n2 m1 m2 v1 v2) by done.
  done.
Qed.

Lemma add_cov_Raise_inv (p : string * string) e :
  _add_cov a b p = Raise e →
  e = KeyError ∧
  (_mean a !! p.1 = None ∨ _mean b !! p.1 = None ∨
   _mean a !! p.2 = None ∨ _mean b !! p.2 = None ∨
   _cov a !! sorted_tuple p.1 p.2 = None ∨
   _cov b !! sorted_tuple p.1 p.2 = None).
Proof.
  destruct (_mean a !! p.1) as [ma1|] eqn:Ea1;
    destruct (_mean b !! p.1) as [ma2|] eqn:Ea2;
    destruct (_mean a !! p.2) as [mb1|] eqn:Eb1;
    destruct (_mean b !! p.2) as [mb2|] eqn:Eb2;
    destruct (_cov a !! sorted_tuple p.1 p.2) as [c1|] eqn:Ec1;
    destruct (_cov b !! sorted_tuple p.1 p.2) as [c2|] eqn:Ec2;
    try (unfold _add_cov, count, mean, cov, subscript;
         rewrite H1, H2, ?Ea1, ?Ea2, ?Eb1, ?Eb2, ?Ec1, ?Ec2;
         intros [= <-]; tauto).
  rewrite (add_cov_eval a b n1 n2 H1 H2 p ma1 ma2 mb1 mb2 c1 c2) by done.
  rewrite truediv_ok by by apply Qc_of_Z_neq_0. simpl.
  by rewrite truediv_ok by (apply Qc_of_Z_neq_0; lia).
Qed.

Lemma add_Raise_inv e : __add__ a b = Raise e → e = KeyError.
Proof.
  rewrite (add_unfold a b n1 n2) by done. intros H.
  unbind_raise H; try discriminate;
    apply comprehend_Raise in H as (k & _ & H).
  - by apply add_mean_Raise_inv in H as [-> _].
  - by apply add_var_Raise_inv in H as [-> _].
  - by apply add_cov_Raise_inv in H as [-> _].
Qed.

End merge_errors.

(** X14: with both counts defined and summing to at least 2, the merge
    raises nothing but [KeyError], and it does raise [KeyError] when the
    right operand lacks a mean or a variance that the left one has. *)
Theorem add_key_errors (a b : t) (n1 n2 : Z) :
  _count a = Some n1 → _count b = Some n2 → (2 ≤ n1 + n2)%Z →
  (∀ e, __add__ a b = Raise e → e = KeyError) ∧
  ((∃ k, is_Some (_mean a !! k) ∧ _mean b !! k = None) →
   __add__ a b = Raise KeyError) ∧
  ((∃ k, is_Some (_var a !! k) ∧ _var b !! k = None) →
   __add__ a b = Raise KeyError).
Proof.
  intros H1 H2 HN.
  assert (∀ e, __add__ a b = Raise e → e = KeyError) as Honly.
  { intros e. apply (add_Raise_inv a b n1 n2); done || lia. }
  split; [done|]. split.
  - intros (k & Hk & Hnone). destruct (__add__ a b) as [r|e] eqn:E.
    + destruct (add_inv a b n1 n2 r H1 H2 E) as (_ & _ & _ & _ & Hm & _).
      destruct (Hm k Hk) as [x Hx].
      destruct (add_mean_Ok_inv a b n1 n2 k x H1 H2 Hx)
        as (? & ? & _ & ? & _). congruence.
    + by rewrite (Honly e).
  - intros (k & Hk & Hnone). destruct (__add__ a b) as [r|e] eqn:E.
    + destruct (add_inv a b n1 n2 r H1 H2 E) as (_ & _ & _ & _ & _ & Hv & _).
      destruct (Hv k Hk) as [x Hx].
      destruct (add_var_Ok_inv a b n1 n2 k x H1 H2 Hx)
        as (? & ? & ? & ? & _ & _ & _ & ? & _). congruence.
    + by rewrite (Honly e).
Qed.

Lemma add_key_errors_witness :
  __add__ store_B_wide store_A = Raise KeyError.
Proof.
  apply (add_key_errors store_B_wide store_A 4 3); try done.
  exists "z". split; [by eexists|done].
Defined.

(** *** Small counts *)




(** *** The merged mean *)




(** *** The merged covariance *)

(** The sum of products of deviations from any two centres, expanded. *)
Lemma total_cross_dev (rows : list (Qc * Qc)) (ml mr : Qc) :
  total ((λ row, (row.1 - ml) * (row.2 - mr)) <$> rows)
  = total ((λ row, row.1 * row.2) <$> rows)
    - ml * total rows.*2 - mr * total rows.*1
    + Qc_of_Z (Z.of_nat (length rows)) * ml * mr.
Proof.
  unfold total. induction rows as [|[x y] rows IH].
  - change (Qc_of_Z (Z.of_nat (length (@nil (Qc * Qc))))) with (Qc_of_Z 0).
    rewrite Z2Qc_inj_0. cbn [fmap list_fmap foldr]. ring.
  - rewrite !fmap_cons, length_cons, Qc_of_nat_S. cbn [foldr fst snd].
    rewrite IH. ring.
Qed.

Lemma read_pair_eval (l r : string) (rows : list (Qc * Qc)) :
  canonical (l, r) → (2 ≤ length rows)%nat →
  ∃ ml mr c,
    ml = total rows.*1 / Qc_of_Z (Z.of_nat (length rows)) ∧
    mr = total rows.*2 / Qc_of_Z (Z.of_nat (length rows)) ∧
    c = (total ((λ row, row.1 * row.2) <$> rows)
         - ml * total rows.*2 - mr * total rows.*1
         + Qc_of_Z (Z.of_nat (length rows)) * ml * mr)
        / (Qc_of_Z (Z.of_nat (length rows)) - 1) ∧
    read_pair l r rows =
      Ok (mk (Some (Z.of_nat (length rows))) (<[r := mr]> {[ l := ml ]}) ∅
            {[ (l, r) := c ]}).
Proof.
  intros Hcan Hlen. eexists _, _, _. do 3 (split; [done|]).
  assert (rows.*1 ≠ [] ∧ rows.*2 ≠ []) as [Hx Hy].
  { destruct rows; [simpl in Hlen; lia|done]. }
  unfold read_pair, sample_cov.
  rewrite !sample_mean_eval, !length_fmap by done. simpl.
  rewrite truediv_ok by (apply Qc_of_Z_neq_0; lia). simpl.
  unfold __init__, dict_of_items; simpl.
  pose proof (proj1 (canonical_fixed (l, r)) Hcan) as Hfix. simpl in Hfix.
  rewrite Hfix, insert_empty.
  by rewrite total_cross_dev, Qc_of_Z_pred.
Qed.

(** X17: the merged covariance of a pair is the pooled covariance, with the
    product of the two differences of means between the operands; and the
    merge of the stores of two tables of at least two rows each is the
    store of their concatenation, so that the pooled covariance is the
    sample covariance of all the rows. *)
Theorem add_pooled_covariance :
  (∀ (a b r : t) (n1 n2 : Z) (p : string * string)
     (ma1 ma2 mb1 mb2 c1 c2 : Qc),
     _count a = Some n1 → _count b = Some n2 →
     (∀ q, is_Some (_cov a !! q) → canonical q) →
     _mean a !! p.1 = Some ma1 → _mean b !! p.1 = Some ma2 →
     _mean a !! p.2 = Some mb1 → _mean b !! p.2 = Some mb2 →
     _cov a !! p = Some c1 → _cov b !! p = Some c2 →
     __add__ a b = Ok r →
     cov r (Some p.1) (Some p.2)
       = Ok (pooled_covariance n1 n2 ma1 ma2 mb1 mb2 c1 c2)) ∧
  (∀ (l r : string) (rows1 rows2 : list (Qc * Qc)),
     l ≠ r → canonical (l, r) →
     (2 ≤ length rows1)%nat → (2 ≤ length rows2)%nat →
     ∃ sa sb sab,
       read_pair l r rows1 = Ok sa ∧ read_pair l r rows2 = Ok sb ∧
       read_pair l r (rows1 ++ rows2) = Ok sab ∧ __add__ sa sb = Ok sab).
Proof.
  split.
  - intros a b r n1 n2 p ma1 ma2 mb1 mb2 c1 c2 H1 H2 Hcan
      Ha1 Ha2 Hb1 Hb2 Hc1 Hc2 Hr.
    unfold cov. rewrite (proj1 (canonical_fixed p)) by (apply Hcan; by eexists).
    apply subscript_Ok.
    by apply (proj2 (add_cov_lookup a b n1 n2 r p H1 H2 Hr Hcan)).
  - intros l r rows1 rows2 Hlr Hcan Hlen1 Hlen2.
    assert (2 ≤ length (rows1 ++ rows2))%nat as Hlen
      by (rewrite length_app; lia).
    destruct (read_pair_eval l r rows1 Hcan Hlen1)
      as (ml1 & mr1 & c1 & Eml1 & Emr1 & Ec1 & ->).
    destruct (read_pair_eval l r rows2 Hcan Hlen2)
      as (ml2 & mr2 & c2 & Eml2 & Emr2 & Ec2 & ->).
    destruct (read_pair_eval l r (rows1 ++ rows2) Hcan Hlen)
      as (ml & mr & c & Eml & Emr & Ec & ->).
    eexists _, _, _. do 3 (split; [done|]).
    set (n1 := Z.of_nat (length rows1)) in *.
    set (n2 := Z.of_nat (length rows2)) in *.
    set (sa := mk (Some n1) (<[r:=mr1]> {[l := ml1]}) ∅ {[(l, r) := c1]}).
    set (sb := mk (Some n2) (<[r:=mr2]> {[l := ml2]}) ∅ {[(l, r) := c2]}).
    assert (∀ q, is_Some (_cov sa !! q) → canonical q) as Hcsa.
    { intros q [x Hx]. unfold sa in Hx; simpl in Hx.
      by apply lookup_singleton_Some in Hx as [<- _]. }
    destruct (add_total_gen sa sb n1 n2) as [s Hs]; try done; try lia.
    { intros k. unfold sa, sb; simpl. rewrite !lookup_insert, !lookup_singleton.
      repeat case_decide; done. }
    { intros p. unfold sa, sb; simpl. rewrite !lookup_singleton.
      by case_decide. }
    { split.
      - intros k [x Hx]. unfold sa in Hx; simpl in Hx.
        by rewrite lookup_empty in Hx.
      - intros q [x Hx]. unfold sa in Hx |- *; simpl in Hx |- *.
        apply lookup_singleton_Some in Hx as [<- _]. simpl.
        split; [done|]. split.
        + rewrite lookup_insert_ne by done. by rewrite lookup_singleton_eq.
        + by rewrite lookup_insert_eq. }
    rewrite Hs. f_equal.
    destruct (add_inv sa sb n1 n2 s eq_refl eq_refl Hs) as (Hcount & _).
    assert (Qc_of_Z n1 ≠ 0) by (apply Qc_of_Z_neq_0; lia).
    assert (Qc_of_Z n2 ≠ 0) by (apply Qc_of_Z_neq_0; lia).
    assert (Qc_of_Z n1 + Qc_of_Z n2 ≠ 0)
      by (rewrite <-Z2Qc_inj_add; apply Qc_of_Z_neq_0; lia).
    assert (Qc_of_Z n1 - 1 ≠ 0)
      by (rewrite <-Qc_of_Z_pred; apply Qc_of_Z_neq_0; lia).
    assert (Qc_of_Z n2 - 1 ≠ 0)
      by (rewrite <-Qc_of_Z_pred; apply Qc_of_Z_neq_0; lia).
    assert (Qc_of_Z n1 + Qc_of_Z n2 - 1 ≠ 0)
      by (rewrite <-Z2Qc_inj_add, <-Qc_of_Z_pred; apply Qc_of_Z_neq_0; lia).
    rewrite !fmap_app, !total_app, length_app, Nat2Z.inj_add in *.
    fold n1 n2 in Eml, Emr, Ec |- *. rewrite Z2Qc_inj_add in *.
    assert (pooled_mean n1 n2 ml1 ml2 = ml) as Hml
      by (unfold pooled_mean; subst ml ml1 ml2; by field).
    assert (pooled_mean n1 n2 mr1 mr2 = mr) as Hmr
      by (unfold pooled_mean; subst mr mr1 mr2; by field).
    assert (pooled_covariance n1 n2 ml1 ml2 mr1 mr2 c1 c2 = c) as Hc.
    { unfold pooled_covariance.
      subst c c1 c2 ml mr ml1 ml2 mr1 mr2. by field. }
    destruct s as [sc sm sv scv]. simpl in Hcount. f_equal.
    + done.
    + apply map_eq. intros k.
      destruct (add_mean_lookup sa sb n1 n2 _ k eq_refl eq_refl Hs)
        as [Hnone Hsome]. unfold sa, sb in Hnone, Hsome; simpl in Hnone, Hsome.
      destruct (decide (k = r)) as [->|Hkr].
      * rewrite lookup_insert_eq, <-Hmr. apply Hsome; by rewrite lookup_insert_eq.
      * rewrite lookup_insert_ne by done.
        destruct (decide (k = l)) as [->|Hkl].
        -- rewrite lookup_singleton_eq, <-Hml.
           apply Hsome; rewrite lookup_insert_ne by done;
             by rewrite lookup_singleton_eq.
        -- rewrite lookup_singleton_ne by done. apply Hnone.
           rewrite lookup_insert_ne by done. by rewrite lookup_singleton_ne.
    + apply map_eq. intros k.
      destruct (add_var_lookup sa sb n1 n2 _ k eq_refl eq_refl Hs)
        as [Hnone _]. unfold sa in Hnone; simpl in Hnone.
      rewrite lookup_empty. by apply Hnone.
    + apply map_eq. intros p.
      destruct (add_cov_lookup sa sb n1 n2 _ p eq_refl eq_refl Hs Hcsa)
        as [Hnone Hsome]. unfold sa, sb in Hnone, Hsome; simpl in Hnone, Hsome.
      destruct (decide (p = (l, r))) as [->|Hp].
      * rewrite lookup_singleton_eq, <-Hc. simpl in Hsome.
        apply Hsome; rewrite ?lookup_singleton_eq, ?lookup_insert_eq;
          try done; rewrite lookup_insert_ne by done;
          by rewrite lookup_singleton_eq.
      * rewrite lookup_singleton_ne by done. apply Hnone.
        by rewrite lookup_singleton_ne.
Qed.

Lemma add_pooled_covariance_witness :
  (∃ r, __add__ store_xy_full store_xy_full = Ok r ∧
        cov r (Some "x") (Some "y")
          = Ok (pooled_covariance 10 10 (Q2Qc 2) (Q2Qc 2) (Q2Qc 4) (Q2Qc 4)
                  (Q2Qc (1 # 2)) (Q2Qc (1 # 2)))) ∧
  ∃ sa sb sab,
    read_pair "x" "y" rows_A = Ok sa ∧ read_pair "x" "y" rows_B = Ok sb ∧
    read_pair "x" "y" (rows_A ++ rows_B) = Ok sab ∧ __add__ sa sb = Ok sab.
Proof.
  destruct add_pooled_covariance as [Hformula Hexact]. split.
  - eexists. split; [vm_compute; reflexivity|].
    apply (Hformula store_xy_full store_xy_full _ 10%Z 10%Z ("x", "y"));
      [reflexivity|reflexivity|apply init_cov_invariant|reflexivity..
      |vm_compute; reflexivity].
  - apply (Hexact "x" "y" rows_A rows_B);
      [done|by vm_compute|simpl; lia|simpl; lia].
Defined.

(** *** Associativity of the merge *)

Section pooled_algebra.
Context (n1 n2 n3 : Z).
Hypothesis Hn1 : (1 ≤ n1)%Z.
Hypothesis Hn2 : (1 ≤ n2)%Z.
Hypothesis Hn3 : (1 ≤ n3)%Z.

Lemma pooled_nonzero :
  Qc_of_Z n1 + Qc_of_Z n2 ≠ 0 ∧ Qc_of_Z n2 + Qc_of_Z n3 ≠ 0 ∧
  Qc_of_Z n1 + Qc_of_Z n2 + Qc_of_Z n3 ≠ 0 ∧
  Qc_of_Z n1 + (Qc_of_Z n2 + Qc_of_Z n3) ≠ 0 ∧
  Qc_of_Z n1 + Qc_of_Z n2 - 1 ≠ 0 ∧ Qc_of_Z n2 + Qc_of_Z n3 - 1 ≠ 0 ∧
  Qc_of_Z n1 + Qc_of_Z n2 + Qc_of_Z n3 - 1 ≠ 0 ∧
  Qc_of_Z n1 + (Qc_of_Z n2 + Qc_of_Z n3) - 1 ≠ 0.
Proof.
  rewrite <-!Z2Qc_inj_add, <-!Qc_of_Z_pred.
  repeat split; apply Qc_of_Z_neq_0; lia.
Qed.

Lemma pooled_mean_assoc (m1 m2 m3 : Qc) :
  pooled_mean (n1 + n2) n3 (pooled_mean n1 n2 m1 m2) m3
  = pooled_mean n1 (n2 + n3) m1 (pooled_mean n2 n3 m2 m3).
Proof.
  destruct pooled_nonzero as (? & ? & ? & ? & _).
  unfold pooled_mean. rewrite !Z2Qc_inj_add. by field.
Qed.

Lemma pooled_variance_assoc (m1 m2 m3 v1 v2 v3 : Qc) :
  spec_pooled_variance (n1 + n2) n3 (pooled_mean n1 n2 m1 m2) m3
    (spec_pooled_variance n1 n2 m1 m2 v1 v2) v3
  = spec_pooled_variance n1 (n2 + n3) m1 (pooled_mean n2 n3 m2 m3)
      v1 (spec_pooled_variance n2 n3 m2 m3 v2 v3).
Proof.
  destruct pooled_nonzero as (? & ? & ? & ? & ? & ? & ? & ?).
  unfold spec_pooled_variance, pooled_mean. cbn [Qcpower].
  rewrite !Z2Qc_inj_add. by field.
Qed.

Lemma pooled_covariance_assoc (ma1 ma2 ma3 mb1 mb2 mb3 c1 c2 c3 : Qc) :
  pooled_covariance (n1 + n2) n3
    (pooled_mean n1 n2 ma1 ma2) ma3 (pooled_mean n1 n2 mb1 mb2) mb3
    (pooled_covariance n1 n2 ma1 ma2 mb1 mb2 c1 c2) c3
  = pooled_covariance n1 (n2 + n3)
      ma1 (pooled_mean n2 n3 ma2 ma3) mb1 (pooled_mean n2 n3 mb2 mb3)
      c1 (pooled_covariance n2 n3 ma2 ma3 mb2 mb3 c2 c3).
Proof.
  destruct pooled_nonzero as (? & ? & ? & ? & ? & ? & ? & ?).
  unfold pooled_covariance, pooled_mean.
  rewrite !Z2Qc_inj_add. by field.
Qed.

End pooled_algebra.

Lemma same_dom_is_Some `{Countable K} {V} (d1 d2 : gmap K V) k :
  dom d1 = dom d2 → is_Some (d1 !! k) ↔ is_Some (d2 !! k).
Proof. intros Hd. rewrite <-!elem_of_dom. by rewrite Hd. Qed.

Lemma well_formed_same_keys (a b : t) :
  dom (_mean a) = dom (_mean b) → dom (_var a) = dom (_var b) →
  dom (_cov a) = dom (_cov b) → well_formed a → well_formed b.
Proof.
  intros Hm Hv Hc [Wv Wc]. split.
  - intros k ?%(same_dom_is_Some _ _ k Hv)%Wv. by apply (same_dom_is_Some _ _ k Hm).
  - intros p (? & ? & ?)%(same_dom_is_Some _ _ p Hc)%Wc.
    split; [done|]. split; by eapply same_dom_is_Some.
Qed.

(** The shape of a merge of two stores with counts. *)
Lemma add_shape (a b r : t) (n1 n2 : Z) :
  _count a = Some n1 → _count b = Some n2 →
  well_formed a → __add__ a b = Ok r →
  _count r = Some (n1 + n2)%Z ∧
  dom (_mean r) = dom (_mean a) ∧ dom (_var r) = dom (_var a) ∧
  dom (_cov r) = dom (_cov a) ∧ well_formed r.
Proof.
  intros H1 H2 Hwf Hr.
  assert (∀ q, is_Some (_cov a !! q) → canonical q) as Hcan.
  { intros q Hq. by destruct (proj2 Hwf q Hq). }
  destruct (add_inv a b n1 n2 r H1 H2 Hr) as (Hcount & _).
  destruct (add_same_keys a b n1 n2 r H1 H2 Hr) as (Hm & Hv & Hc).
  specialize (Hc Hcan).
  assert (dom (_mean r) = dom (_mean a)) as Dm
    by (apply set_eq; intros k; by rewrite !elem_of_dom).
  assert (dom (_var r) = dom (_var a)) as Dv
    by (apply set_eq; intros k; by rewrite !elem_of_dom).
  assert (dom (_cov r) = dom (_cov a)) as Dc
    by (apply set_eq; intros k; by rewrite !elem_of_dom).
  do 4 (split; [done|]).
  by apply (well_formed_same_keys a r).
Qed.

(** X18: the merge is associative in exact arithmetic: for three stores
    with the same keys and counts of at least 2 that satisfy the
    invariants, [(a + b) + c] and [a + (b + c)] both return, and return the
    same store. *)
Theorem add_associative (a b c : t) :
  mergeable a b → mergeable b c → well_formed a →
  ∃ ab bc r,
    __add__ a b = Ok ab ∧ __add__ b c = Ok bc ∧
    __add__ ab c = Ok r ∧ __add__ a bc = Ok r.
Proof.
  intros Hab Hbc Hwa.
  pose proof Hab as ((n1 & n2 & H1 & H2 & Hge1 & Hge2) & Dm12 & Dv12 & Dc12).
  pose proof Hbc as ((n2' & n3 & H2' & H3 & _ & Hge3) & Dm23 & Dv23 & Dc23).
  assert (n2' = n2) as -> by congruence. clear H2'.
  pose proof (well_formed_same_keys a b Dm12 Dv12 Dc12 Hwa) as Hwb.
  destruct (add_total a b Hab Hwa) as [ab Eab].
  destruct (add_total b c Hbc Hwb) as [bc Ebc].
  destruct (add_shape a b ab n1 n2 H1 H2 Hwa Eab)
    as (Cab & Dmab & Dvab & Dcab & Hwab).
  destruct (add_shape b c bc n2 n3 H2 H3 Hwb Ebc)
    as (Cbc & Dmbc & Dvbc & Dcbc & Hwbc).
  destruct (add_total_gen ab c (n1 + n2) n3) as [r1 E1]; try done; try lia.
  { intros k. rewrite <-!elem_of_dom. by rewrite Dmab, Dm12, Dm23. }
  { intros k. rewrite <-!elem_of_dom. by rewrite Dvab, Dv12, Dv23. }
  { intros k. rewrite <-!elem_of_dom. by rewrite Dcab, Dc12, Dc23. }
  destruct (add_total_gen a bc n1 (n2 + n3)) as [r2 E2]; try done; try lia.
  { intros k. rewrite <-!elem_of_dom. by rewrite Dmbc, Dm12. }
  { intros k. rewrite <-!elem_of_dom. by rewrite Dvbc, Dv12. }
  { intros k. rewrite <-!elem_of_dom. by rewrite Dcbc, Dc12. }
  exists ab, bc, r1. do 3 (split; [done|]). rewrite E2. f_equal.
  assert (∀ s, well_formed s → ∀ q, is_Some (_cov s !! q) → canonical q)
    as Hcan.
  { intros s Hw q Hq. by destruct (proj2 Hw q Hq). }
  destruct (add_inv ab c _ _ r1 Cab H3 E1) as (C1 & _).
  destruct (add_inv a bc _ _ r2 H1 Cbc E2) as (C2 & _).
  destruct r1 as [c1 m1 v1 cv1], r2 as [c2 m2 v2 cv2]. simpl in C1, C2.
  f_equal.
  - rewrite C1, C2. f_equal. lia.
  - apply map_eq. intros k.
    destruct (add_mean_lookup a b n1 n2 ab k H1 H2 Eab) as [Nab Sab].
    destruct (add_mean_lookup b c n2 n3 bc k H2 H3 Ebc) as [Nbc Sbc].
    destruct (add_mean_lookup ab c _ _ _ k Cab H3 E1) as [N1 S1].
    destruct (add_mean_lookup a bc _ _ _ k H1 Cbc E2) as [N2 S2].
    simpl in N1, S1, N2, S2.
    destruct (_mean a !! k) as [x1|] eqn:Ea.
    + destruct (proj1 (same_dom_is_Some _ _ k Dm12)) as [x2 Eb]; [by eexists|].
      destruct (proj1 (same_dom_is_Some _ _ k Dm23)) as [x3 Ec]; [by eexists|].
      rewrite (S1 _ x3 (Sab x1 x2 eq_refl Eb) Ec).
      rewrite (S2 x1 _ eq_refl (Sbc x2 x3 Eb Ec)).
      f_equal. symmetry. apply pooled_mean_assoc; lia.
    + by rewrite N1, N2 by auto.
  - apply map_eq. intros k.
    destruct (add_mean_lookup a b n1 n2 ab k H1 H2 Eab) as [_ Sab].
    destruct (add_mean_lookup b c n2 n3 bc k H2 H3 Ebc) as [_ Sbc].
    destruct (add_var_lookup a b n1 n2 ab k H1 H2 Eab) as [Nab Vab].
    destruct (add_var_lookup b c n2 n3 bc k H2 H3 Ebc) as [Nbc Vbc].
    destruct (add_var_lookup ab c _ _ _ k Cab H3 E1) as [N1 S1].
    destruct (add_var_lookup a bc _ _ _ k H1 Cbc E2) as [N2 S2].
    simpl in N1, S1, N2, S2.
    destruct (_var a !! k) as [y1|] eqn:Eva.
    + destruct (proj1 (same_dom_is_Some _ _ k Dv12)) as [y2 Evb]; [by eexists|].
      destruct (proj1 (same_dom_is_Some _ _ k Dv23)) as [y3 Evc]; [by eexists|].
      destruct (proj1 Hwa k) as [x1 Ea]; [by eexists|].
      destruct (proj1 (same_dom_is_Some _ _ k Dm12)) as [x2 Eb]; [by eexists|].
      destruct (proj1 (same_dom_is_Some _ _ k Dm23)) as [x3 Ec]; [by eexists|].
      rewrite (S1 _ x3 _ y3 (Sab x1 x2 Ea Eb) Ec
                 (Vab x1 x2 y1 y2 Ea Eb eq_refl Evb) Evc).
      rewrite (S2 x1 _ y1 _ Ea (Sbc x2 x3 Eb Ec) eq_refl
                 (Vbc x2 x3 y2 y3 Eb Ec Evb Evc)).
      f_equal. symmetry. apply pooled_variance_assoc; lia.
    + by rewrite N1, N2 by auto.
  - apply map_eq. intros p.
    destruct (add_mean_lookup a b n1 n2 ab p.1 H1 H2 Eab) as [_ Sab1].
    destruct (add_mean_lookup b c n2 n3 bc p.1 H2 H3 Ebc) as [_ Sbc1].
    destruct (add_mean_lookup a b n1 n2 ab p.2 H1 H2 Eab) as [_ Sab2].
    destruct (add_mean_lookup b c n2 n3 bc p.2 H2 H3 Ebc) as [_ Sbc2].
    destruct (add_cov_lookup a b n1 n2 ab p H1 H2 Eab (Hcan a Hwa))
      as [Nab Cab'].
    destruct (add_cov_lookup b c n2 n3 bc p H2 H3 Ebc (Hcan b Hwb))
      as [Nbc Cbc'].
    destruct (add_cov_lookup ab c _ _ _ p Cab H3 E1 (Hcan ab Hwab))
      as [N1 S1].
    destruct (add_cov_lookup a bc _ _ _ p H1 Cbc E2 (Hcan a Hwa))
      as [N2 S2].
    simpl in N1, S1, N2, S2.
    destruct (_cov a !! p) as [z1|] eqn:Eca.
    + destruct (proj1 (same_dom_is_Some _ _ p Dc12)) as [z2 Ecb]; [by eexists|].
      destruct (proj1 (same_dom_is_Some _ _ p Dc23)) as [z3 Ecc]; [by eexists|].
      destruct (proj2 Hwa p) as (_ & [xa1 Ea1] & [xb1 Eb1]); [by eexists|].
      destruct (proj1 (same_dom_is_Some _ _ p.1 Dm12)) as [xa2 Ea2];
        [by eexists|].
      destruct (proj1 (same_dom_is_Some _ _ p.1 Dm23)) as [xa3 Ea3];
        [by eexists|].
      destruct (proj1 (same_dom_is_Some _ _ p.2 Dm12)) as [xb2 Eb2];
        [by eexists|].
      destruct (proj1 (same_dom_is_Some _ _ p.2 Dm23)) as [xb3 Eb3];
        [by eexists|].
      rewrite (S1 _ xa3 _ xb3 _ z3 (Sab1 xa1 xa2 Ea1 Ea2) Ea3
                 (Sab2 xb1 xb2 Eb1 Eb2) Eb3
                 (Cab' xa1 xa2 xb1 xb2 z1 z2 Ea1 Ea2 Eb1 Eb2 eq_refl Ecb) Ecc).
      rewrite (S2 xa1 _ xb1 _ z1 _ Ea1 (Sbc1 xa2 xa3 Ea2 Ea3)
                 Eb1 (Sbc2 xb2 xb3 Eb2 Eb3) eq_refl
                 (Cbc' xa2 xa3 xb2 xb3 z2 z3 Ea2 Ea3 Eb2 Eb3 Ecb Ecc)).
      f_equal. symmetry. apply pooled_covariance_assoc; lia.
    + by rewrite N1, N2 by auto.
Qed.

Lemma mergeable_B_C : mergeable store_B store_C.
Proof.
  split; [|by vm_compute].
  exists 4%Z, 2%Z. repeat split; lia.
Defined.

Lemma add_associative_witness :
  ∃ ab bc r,
    __add__ store_A store_B = Ok ab ∧ __add__ store_B store_C = Ok bc ∧
    __add__ ab store_C = Ok r ∧ __add__ store_A bc = Ok r.
Proof.
  exact (add_associative store_A store_B store_C
           mergeable_scenario mergeable_B_C well_formed_store_A).
Defined.

(** ** Column labels *)

(** X19: the labels of different statistics never coincide, whatever the
    variable names, and a mean, variance or demean label determines its
    variable; a covariance label does not always determine its pair: the
    pairs [("a__b", "c")] and [("a", "b__c")] share one label. *)
Theorem column_labels :
  (∀ c, _COUNT ≠ _MEAN c ∧ _COUNT ≠ _VAR c) ∧
  (∀ l r, _COUNT ≠ _COV l r) ∧
  (∀ c c', _MEAN c ≠ _VAR c') ∧
  (∀ c l r, _MEAN c ≠ _COV l r ∧ _VAR c ≠ _COV l r) ∧
  (∀ c c', _MEAN c = _MEAN c' → c = c') ∧
  (∀ c c', _VAR c = _VAR c' → c = c') ∧
  (∀ c c', _DEMEAN c = _DEMEAN c' → c = c') ∧
  (("a__b", "c") ≠ ("a", "b__c") ∧ _COV "a__b" "c" = _COV "a" "b__c").
Proof.
  unfold _COUNT, _MEAN, _VAR, _COV, _DEMEAN.
  split; [by intros c; split|]. split; [by intros l r|].
  split; [by intros c c'|]. split; [by intros c l r; split|].
  split; [by intros c c' [= ?]|]. split; [by intros c c' [= ?]|].
  split; [by intros c c' [= ?]|]. by split.
Qed.

Lemma column_labels_witness : "x" = "x".
Proof.
  destruct column_labels as (_ & _ & _ & _ & Hmean & _).
  exact (Hmean "x" "x" eq_refl).
Defined.
